(** * JurisAI document chunking: a shallow embedding of [src/chunking.py]

    The development follows the layers of [DocumentChunker]:
    the Python string primitives the module relies on, the three header
    patterns and the paragraph separator (run by a small backtracking
    matcher with Python's ordered-choice semantics), the tokenizer
    interface, the three splitters, and the orchestrator [smart_chunk]
    with its dictionary-valued chunks. *)

From Stdlib Require Import String Ascii ZArith List Lia Bool.
From stdpp Require Import base option list gmap strings pretty.

Import ListNotations.
Local Open Scope string_scope.
Local Open Scope list_scope.
Local Open Scope Z_scope.

(** ** Python string primitives

    A Python [str] is modelled as a Rocq [string]; every [ascii] stands
    for one character (code points below 256), so [len] is
    [String.length]. *)

Module PyStr.

(** [str.isspace] on one character, as used by [\s] and [str.strip]:
    tab to carriage return, the four separators 28-31, space, NEL
    and the no-break space. *)
Definition isspace (c : ascii) : bool :=
  let n := nat_of_ascii c in
  ((9 <=? n) && (n <=? 13))%nat || ((28 <=? n) && (n <=? 32))%nat
  || (n =? 133)%nat || (n =? 160)%nat.

Definition newline : ascii := "010"%char.

Fixpoint all_space (s : string) : bool :=
  match s with
  | EmptyString => true
  | String c s' => isspace c && all_space s'
  end.

Definition len (s : string) : Z := Z.of_nat (String.length s).

(** [s[a:b]] for [0 <= a], [0 <= b]; out-of-range bounds are clamped. *)
Definition slice (s : string) (a b : nat) : string :=
  substring a (b - a) s.

(** [s[a:]]. *)
Fixpoint drop (a : nat) (s : string) : string :=
  match a, s with
  | O, _ => s
  | S a', String _ s' => drop a' s'
  | S _, EmptyString => EmptyString
  end.

Fixpoint lstrip (s : string) : string :=
  match s with
  | String c s' => if isspace c then lstrip s' else s
  | EmptyString => EmptyString
  end.

(** Right strip: a character is kept when something non-blank
    follows it or when it is not blank itself. *)
Fixpoint rstrip (s : string) : string :=
  match s with
  | String c s' =>
      match rstrip s' with
      | EmptyString => if isspace c then EmptyString else String c EmptyString
      | r => String c r
      end
  | EmptyString => EmptyString
  end.

Definition strip (s : string) : string := rstrip (lstrip s).

(** Truth value of a string: only the empty string is falsy. *)
Definition truthy (s : string) : bool :=
  match s with
  | EmptyString => false
  | String _ _ => true
  end.

(** [sep.join(l)]. *)
Definition join (sep : string) (l : list string) : string :=
  String.concat sep l.

(** First index [>= pos] at which [sub] occurs in [s], where [s] is
    the text from index [pos] on. *)
Fixpoint find_at (sub s : string) (pos : nat) : option nat :=
  if String.prefix sub s then Some pos
  else match s with
       | String _ s' => find_at sub s' (S pos)
       | EmptyString => None
       end.

(** [s.find(sub, start)]; [None] stands for Python's [-1]. *)
Definition find (s sub : string) (start : nat) : option nat :=
  if (String.length s <? start)%nat then None
  else find_at sub (drop start s) start.

End PyStr.

(** ** Regular expressions

    The fragment of Python's [re] syntax the module uses.  Repetition
    is only ever applied to a character class in the source patterns,
    so [Star] and [StarLazy] take a class.  Capture groups are dropped:
    the code reads [group(0)], [start()] and [end()] only. *)

Module Re.

Inductive regex : Type :=
| Chr (c : ascii)                 (* a literal character *)
| Lit (s : string)                (* a literal word *)
| Cls (p : ascii -> bool)         (* a class, [\s], or [.] *)
| Bol                             (* [^] without MULTILINE *)
| Eol                             (* [$] without MULTILINE *)
| Seq (r1 r2 : regex)
| Alt (r1 r2 : regex)             (* [r1|r2], left first *)
| Opt (r : regex)                 (* [r?], greedy *)
| Star (p : ascii -> bool)        (* [c*], greedy *)
| StarLazy (p : ascii -> bool).   (* [c*?] *)

Definition Plus (p : ascii -> bool) : regex := Seq (Cls p) (Star p).

(** A continuation receives the position reached and the text that
    is left, and answers with the end of the whole match. *)
Definition cont := nat -> string -> option nat.

Definition or_else (a : option nat) (b : option nat) : option nat :=
  match a with Some e => Some e | None => b end.

Fixpoint lit (w : string) (pos : nat) (s : string) (k : cont) : option nat :=
  match w with
  | EmptyString => k pos s
  | String c w' =>
      match s with
      | String c' s' => if Ascii.eqb c c' then lit w' (S pos) s' k else None
      | EmptyString => None
      end
  end.

Fixpoint star (p : ascii -> bool) (pos : nat) (s : string) (k : cont)
  : option nat :=
  match s with
  | String c s' =>
      if p c then or_else (star p (S pos) s' k) (k pos s) else k pos s
  | EmptyString => k pos s
  end.

Fixpoint star_lazy (p : ascii -> bool) (pos : nat) (s : string) (k : cont)
  : option nat :=
  match k pos s with
  | Some e => Some e
  | None =>
      match s with
      | String c s' => if p c then star_lazy p (S pos) s' k else None
      | EmptyString => None
      end
  end.

(** [$] matches at the end of the text and just before a final
    line feed. *)
Definition at_eol (s : string) : bool :=
  match s with
  | EmptyString => true
  | String c EmptyString => Ascii.eqb c PyStr.newline
  | _ => false
  end.

Fixpoint run (r : regex) (pos : nat) (s : string) (k : cont) : option nat :=
  match r with
  | Chr c =>
      match s with
      | String c' s' => if Ascii.eqb c c' then k (S pos) s' else None
      | EmptyString => None
      end
  | Lit w => lit w pos s k
  | Cls p =>
      match s with
      | String c' s' => if p c' then k (S pos) s' else None
      | EmptyString => None
      end
  | Bol => if (pos =? 0)%nat then k pos s else None
  | Eol => if at_eol s then k pos s else None
  | Seq r1 r2 => run r1 pos s (fun pos' s' => run r2 pos' s' k)
  | Alt r1 r2 => or_else (run r1 pos s k) (run r2 pos s k)
  | Opt r' => or_else (run r' pos s k) (k pos s)
  | Star p => star p pos s k
  | StarLazy p => star_lazy p pos s k
  end.

(** [pattern.match] anchored at [pos]: the end of the match. *)
Definition match_at (r : regex) (pos : nat) (s : string) : option nat :=
  run r pos s (fun e _ => Some e).

(** [re.finditer]: the spans of the successive non-overlapping
    matches, scanning left to right.  [skip] counts the characters of
    the last match still to be passed over; after an empty match the
    scan moves on by one character. *)
Fixpoint scan (r : regex) (pos skip : nat) (s : string) : list (nat * nat) :=
  match skip with
  | S skip' =>
      match s with
      | String _ s' => scan r (S pos) skip' s'
      | EmptyString => []
      end
  | O =>
      match match_at r pos s with
      | Some e =>
          (pos, e) ::
          match s with
          | String _ s' => scan r (S pos) (e - pos - 1) s'
          | EmptyString => []
          end
      | None =>
          match s with
          | String _ s' => scan r (S pos) 0 s'
          | EmptyString => []
          end
      end
  end.

Definition finditer (r : regex) (text : string) : list (nat * nat) :=
  scan r 0 0 text.

(** [re.split] for a pattern without groups: the pieces of [text]
    between the matches. *)
Fixpoint pieces (text : string) (from : nat) (ms : list (nat * nat))
  : list string :=
  match ms with
  | [] => [PyStr.drop from text]
  | (b, e) :: ms' => PyStr.slice text from b :: pieces text e ms'
  end.

Definition split (r : regex) (text : string) : list string :=
  pieces text 0 (finditer r text).

(** Character classes of the source patterns. *)
Definition digit (c : ascii) : bool :=
  let n := nat_of_ascii c in ((48 <=? n) && (n <=? 57))%nat.
Definition upper (c : ascii) : bool :=
  let n := nat_of_ascii c in ((65 <=? n) && (n <=? 90))%nat.
Definition roman (c : ascii) : bool :=
  Ascii.eqb c "I" || Ascii.eqb c "V" || Ascii.eqb c "X".
Definition dot (c : ascii) : bool := negb (Ascii.eqb c PyStr.newline).
Definition caps_body (c : ascii) : bool :=
  upper c || PyStr.isspace c || Ascii.eqb c "(" || Ascii.eqb c ")".

Definition line_start : regex := Alt Bol (Chr PyStr.newline).
Definition line_end : regex := Alt (Chr PyStr.newline) Eol.

(** [r'\n\s*\n'] *)
Definition blank_line : regex :=
  Seq (Chr PyStr.newline) (Seq (Star PyStr.isspace) (Chr PyStr.newline)).

(** [r'(?:^|\n)(?:SECTION|ARTICLE)\s+([0-9]+|[IVX]+)\.?\s*( .* )(?:\n|$)']
    (blanks added around the second group) *)
Definition section_pattern : regex :=
  Seq line_start
    (Seq (Alt (Lit "SECTION") (Lit "ARTICLE"))
       (Seq (Plus PyStr.isspace)
          (Seq (Alt (Plus digit) (Plus roman))
             (Seq (Opt (Chr "."))
                (Seq (Star PyStr.isspace)
                   (Seq (Star dot) line_end)))))).

(** [r'(?:^|\n)([0-9]+\.[0-9]+(?:\.[0-9]+)?)\s+(.*?)(?:\n|$)'] *)
Definition numbered_pattern : regex :=
  Seq line_start
    (Seq (Plus digit)
       (Seq (Chr ".")
          (Seq (Plus digit)
             (Seq (Opt (Seq (Chr ".") (Plus digit)))
                (Seq (Plus PyStr.isspace)
                   (Seq (StarLazy dot) line_end)))))).

(** [r'(?:^|\n)([A-Z][A-Z\s\(\)]+)(?:\n|$)'] *)
Definition header_caps_pattern : regex :=
  Seq line_start (Seq (Cls upper) (Seq (Plus caps_body) line_end)).

End Re.

(** ** Tokenizer and chunker configuration

    [tiktoken] is an external library: the chunker only calls [encode]
    and [decode] of the encoding it was built with.  The [encode] of
    [tiktoken] raises a [ValueError] on a text that holds one of its
    special tokens, and the exception leaves every method below
    before a chunk is built.  The model describes the runs in which
    [encode] takes every text it is handed: a result of a method
    below is the result of such a run, and nothing is said about a
    text the encoder refuses. *)

Record Tokenizer : Type := {
  token : Type;
  encode : string -> list token;
  decode : list token -> string
}.

(** The instance state set by [__init__]. *)
Record DocumentChunker : Type := {
  chunk_size : Z;
  chunk_overlap : Z;
  encoding : Tokenizer
}.

(** A chunk as the splitters build it.  Inside the splitters a chunk
    dict has exactly the keys [text], [token_count], [start_char],
    [end_char], [strategy] and, optionally, [section_title]. *)
Record chunk : Type := {
  text : string;
  token_count : Z;
  start_char : Z;
  end_char : Z;
  strategy : string;
  section_title : option string
}.

(** The [{"text": p, "start": start}] entries of [para_infos]. *)
Record para_info : Type := {
  para_text : string;
  para_start : nat
}.

(** The entries of [matches]; [match_obj] is stored but never read. *)
Record header_match : Type := {
  m_start : nat;
  m_end : nat;
  m_title : string
}.

(** Python values stored in a chunk dictionary. *)
Inductive value : Type :=
| VInt (z : Z)
| VStr (s : string).

(** The exceptions the code of the orchestrator raises itself. *)
Inductive py_error : Type :=
| TypeError
| KeyError.

(** How an f-string renders a value. *)
Definition format (v : value) : string :=
  match v with
  | VInt z => pretty z
  | VStr s => s
  end.

(** ** Python sequence primitives *)

Module PySeq.

(** How a slice bound is clamped against a sequence of length [n]:
    a negative bound counts from the end. *)
Definition clamp (n : nat) (i : Z) : nat :=
  if i <? 0 then Z.to_nat (Z.max (i + Z.of_nat n) 0)
  else Nat.min (Z.to_nat i) n.

(** [l[lo:hi]]. *)
Definition slice {A} (l : list A) (lo hi : Z) : list A :=
  let a := clamp (length l) lo in
  let b := clamp (length l) hi in
  firstn (b - a) (skipn a l).

Fixpoint range_from (n : nat) (i step : Z) : list Z :=
  match n with
  | O => []
  | S n' => i :: range_from n' (i + step) step
  end.

(** [range(start, stop, step)] for a positive [step]; the chunker
    floors its step at 1 before it builds the range. *)
Definition range (start stop step : Z) : list Z :=
  if (0 <? step) && (start <? stop)
  then range_from (Z.to_nat ((stop - start - 1) / step + 1)) start step
  else [].

(** Stable insertion used by [list.sort(key=...)]: the new element
    goes after every element whose key is not larger. *)
Fixpoint insert_by {A} (key : A -> nat) (x : A) (l : list A) : list A :=
  match l with
  | [] => [x]
  | y :: l' =>
      if (key x <? key y)%nat then x :: l else y :: insert_by key x l'
  end.

Definition sort_by {A} (key : A -> nat) (l : list A) : list A :=
  fold_left (fun acc x => insert_by key x acc) l [].

End PySeq.

(** ** The methods of [DocumentChunker] *)

Section Methods.

Variable self : DocumentChunker.

Definition count_tokens (txt : string) : Z :=
  match txt with
  | EmptyString => 0
  | _ => Z.of_nat (length (encode (encoding self) txt))
  end.

(** [_create_chunk_dict(text, start_idx, metadata)]; the metadata
    argument is always a literal with the [strategy] tag and possibly
    a [section_title]. *)
Definition _create_chunk_dict (txt : string) (start_idx : Z)
    (strat : string) (title : option string) : chunk :=
  {| text := txt;
     token_count := count_tokens txt;
     start_char := start_idx;
     end_char := start_idx + PyStr.len txt;
     strategy := strat;
     section_title := title |}.

(** *** Token windows *)

Definition step : Z :=
  let s := chunk_size self - chunk_overlap self in
  if s <=? 0 then 1 else s.

(** The body of [for i in range(0, total_tokens, step)], with its
    [break]. *)
Fixpoint tokens_loop (tokens : list (token (encoding self)))
    (indices : list Z) (chunks : list chunk) : list chunk :=
  match indices with
  | [] => chunks
  | i :: rest =>
      let chunk_tokens := PySeq.slice tokens i (i + chunk_size self) in
      let chunk_text := decode (encoding self) chunk_tokens in
      let chunks' := chunks ++ [_create_chunk_dict chunk_text (-1) "token" None] in
      if i + chunk_size self >=? Z.of_nat (length tokens) then chunks'
      else tokens_loop tokens rest chunks'
  end.

Definition chunk_by_tokens (txt : string) : list chunk :=
  let tokens := encode (encoding self) txt in
  let total_tokens := Z.of_nat (length tokens) in
  tokens_loop tokens (PySeq.range 0 total_tokens step) [].

(** *** Paragraphs *)

Definition blank_blank : string :=
  String PyStr.newline (String PyStr.newline EmptyString).

Fixpoint build_para_infos (txt : string) (paragraphs : list string)
    (search_start : nat) : list para_info :=
  match paragraphs with
  | [] => []
  | p :: ps =>
      let start :=
        match PyStr.find txt p search_start with
        | Some i => i
        | None => search_start
        end in
      {| para_text := p; para_start := start |}
        :: build_para_infos txt ps (start + String.length p)
  end.

(** The loop state of [chunk_by_paragraphs]. *)
Record pstate : Type := {
  chunks : list chunk;
  current_chunk : list para_info;
  current_tokens : Z
}.

(** Emit [current_chunk] as one chunk; only called on a non-empty
    group. *)
Definition flush (chunks0 : list chunk) (group : list para_info)
  : list chunk :=
  match group with
  | [] => chunks0
  | first :: _ =>
      let combined_text := PyStr.join blank_blank (map para_text group) in
      let chunk_start := Z.of_nat (para_start first) in
      chunks0 ++ [_create_chunk_dict combined_text chunk_start "paragraph" None]
  end.

(** [for old_p in reversed(current_chunk)] with its [break]. *)
Fixpoint overlap_loop (reversed : list para_info)
    (new_chunk : list para_info) (overlap_tokens : Z)
  : list para_info * Z :=
  match reversed with
  | [] => (new_chunk, overlap_tokens)
  | old_p :: rest =>
      let p_tok := count_tokens (para_text old_p) in
      if overlap_tokens + p_tok <=? chunk_overlap self
      then overlap_loop rest (old_p :: new_chunk) (overlap_tokens + p_tok)
      else (new_chunk, overlap_tokens)
  end.

(** The fix-up of a sub-chunk of an oversized paragraph: only
    [start_char] and [strategy] are assigned. *)
Definition subsplit (para : para_info) (sc : chunk) : chunk :=
  {| text := text sc;
     token_count := token_count sc;
     start_char := Z.of_nat (para_start para);
     end_char := end_char sc;
     strategy := "paragraph_subsplit";
     section_title := section_title sc |}.

Definition nonempty {A} (l : list A) : bool :=
  match l with [] => false | _ => true end.

(** One iteration of [for i, para in enumerate(para_infos)]. *)
Definition para_step (st : pstate) (para : para_info) : pstate :=
  let p_text := para_text para in
  let p_tokens := count_tokens p_text in
  let st1 :=
    if (current_tokens st + p_tokens >? chunk_size self)
       && nonempty (current_chunk st)
    then
      let '(new_chunk, overlap_tokens) :=
        overlap_loop (rev (current_chunk st)) [] 0 in
      {| chunks := flush (chunks st) (current_chunk st);
         current_chunk := new_chunk;
         current_tokens := overlap_tokens |}
    else st in
  if p_tokens >? chunk_size self then
    let st2 :=
      if nonempty (current_chunk st1)
      then {| chunks := flush (chunks st1) (current_chunk st1);
              current_chunk := [];
              current_tokens := 0 |}
      else st1 in
    {| chunks := chunks st2 ++ map (subsplit para) (chunk_by_tokens p_text);
       current_chunk := current_chunk st2;
       current_tokens := current_tokens st2 |}
  else
    {| chunks := chunks st1;
       current_chunk := current_chunk st1 ++ [para];
       current_tokens := current_tokens st1 + p_tokens |}.

Definition chunk_by_paragraphs (txt : string) : list chunk :=
  let paragraphs := Re.split Re.blank_line txt in
  let para_infos := build_para_infos txt paragraphs 0 in
  let st :=
    fold_left para_step para_infos
      {| chunks := []; current_chunk := []; current_tokens := 0 |} in
  if nonempty (current_chunk st)
  then flush (chunks st) (current_chunk st)
  else chunks st.

(** *** Sections *)

Definition matches_of (pat : Re.regex) (txt : string) : list header_match :=
  map (fun '(s, e) =>
         {| m_start := s; m_end := e;
            m_title := PyStr.strip (PyStr.slice txt s e) |})
      (Re.finditer pat txt).

Definition all_matches (txt : string) : list header_match :=
  matches_of Re.section_pattern txt
    ++ matches_of Re.numbered_pattern txt
    ++ matches_of Re.header_caps_pattern txt.

(** [for m in matches: if m["start"] >= curr_end: ...]. *)
Fixpoint unique_loop (ms : list header_match) (curr_end : Z)
  : list header_match :=
  match ms with
  | [] => []
  | m :: ms' =>
      if Z.of_nat (m_start m) >=? curr_end
      then m :: unique_loop ms' (Z.of_nat (m_end m))
      else unique_loop ms' curr_end
  end.

Definition unique_matches (txt : string) : list header_match :=
  unique_loop (PySeq.sort_by m_start (all_matches txt)) (-1).

(** The adjustment of a sub-chunk of an oversized section. *)
Definition in_section (m : header_match) (section_start : nat) (sc : chunk)
  : chunk :=
  {| text := text sc;
     token_count := token_count sc;
     start_char := start_char sc + Z.of_nat section_start;
     end_char := end_char sc + Z.of_nat section_start;
     strategy := strategy sc;
     section_title := Some (m_title m) |}.

(** [for i in range(len(unique_matches))]: the head of [ums] is
    [unique_matches[i]], the next element bounds the section. *)
Fixpoint sections_loop (txt : string) (ums : list header_match)
  : list chunk :=
  match ums with
  | [] => []
  | m :: rest =>
      let section_start := m_start m in
      let section_end :=
        match rest with
        | m' :: _ => m_start m'
        | [] => String.length txt
        end in
      let section_text := PyStr.slice txt section_start section_end in
      (if count_tokens section_text >? chunk_size self
       then map (in_section m section_start) (chunk_by_paragraphs section_text)
       else [_create_chunk_dict section_text (Z.of_nat section_start)
               "section" (Some (m_title m))])
        ++ sections_loop txt rest
  end.

Definition chunk_by_sections (txt : string) : list chunk :=
  match unique_matches txt with
  | [] => chunk_by_paragraphs txt
  | (first :: _) as ums =>
      let chunks0 := sections_loop txt ums in
      if (0 <? m_start first)%nat then
        let preamble := PyStr.slice txt 0 (m_start first) in
        if PyStr.truthy (PyStr.strip preamble)
        then chunk_by_paragraphs preamble ++ chunks0
        else chunks0
      else chunks0
  end.


(** *** Orchestrator

    [smart_chunk] merges arbitrary caller metadata into the chunks,
    so from here on a chunk is a dictionary from keys to Python
    values; metadata values are integers or strings. *)

Definition as_dict (c : chunk) : gmap string value :=
  let d : gmap string value :=
    <["text" := VStr (text c)]>
    (<["token_count" := VInt (token_count c)]>
    (<["start_char" := VInt (start_char c)]>
    (<["end_char" := VInt (end_char c)]>
    (<["strategy" := VStr (strategy c)]> ∅)))) in
  match section_title c with
  | Some t => <["section_title" := VStr t]> d
  | None => d
  end.

(** The body of [for i, chunk in enumerate(chunks)].  [metadata] is
    [None] or a dict; an empty dict is falsy and merges nothing. *)
Definition enrich (metadata : option (gmap string value)) (i : nat)
    (c : gmap string value) : gmap string value :=
  let c1 :=
    match metadata with
    | Some md => if bool_decide (md = ∅) then c else md ∪ c
    | None => c
    end in
  let c2 := <["chunk_index" := VInt (Z.of_nat i)]> c1 in
  <["chunk_id" :=
      VStr ("chnk_" +:+ pretty i +:+ "_"
              +:+ format (default (VInt 0) (c2 !! "start_char")))]> c2.

(** [optimize_chunks]: the comparison [chunk["token_count"] < 10]
    raises on a missing key and on a string. *)
Fixpoint optimize_chunks (cs : list (gmap string value))
  : py_error + list (gmap string value) :=
  match cs with
  | [] => inr []
  | c :: rest =>
      match c !! "token_count" with
      | None => inl KeyError
      | Some (VStr _) => inl TypeError
      | Some (VInt n) =>
          match optimize_chunks rest with
          | inl e => inl e
          | inr optimized => inr (if n <? 10 then optimized else c :: optimized)
          end
      end
  end.

Definition smart_chunk (txt : string) (metadata : option (gmap string value))
  : py_error + list (gmap string value) :=
  let final_chunks :=
    imap (fun i c => enrich metadata i (as_dict c)) (chunk_by_sections txt) in
  optimize_chunks final_chunks.

End Methods.

(** ** Downstream of the chunker: [embeddings.py] and [vector_store.py]

    The two consumers of the chunk list.  The embedding service and
    the vector collection are external: the service is a function that
    answers the requests of a session one after the other, the
    collection is seen through the batches it is sent.  Both consumers
    update the chunk dicts they are given in place; they are modelled
    for a list of distinct dicts, which is what [smart_chunk]
    returns. *)

Module Downstream.

Section Services.

(** An embedding as the service returns it (a list of floats); the
    code modelled here never looks inside. *)
Variable vector : Type.

(** The values of a chunk dict once embeddings are attached. *)
Inductive evalue : Type :=
| EVal (v : value)
| EVec (e : vector)
| ENone.

Inductive error : Type :=
| ValueError
| KeyError
| IndexError.

(** [genai.embed_content(...)['embedding']] behind the [try] of
    [embed_text]: the answer to request number [n] of the session for
    [content] and [task_type], [None] when the call raises. *)
Variable embed_content : nat -> evalue -> string -> option vector.

Definition embed_text (n : nat) (txt : evalue) (task_type : string)
  : option vector :=
  embed_content n txt task_type.

(** [for text in batch]: one request per text, the answers appended. *)
Definition embed_each (task_type : string)
    (st : list (option vector) * nat) (batch : list evalue)
  : list (option vector) * nat :=
  fold_left
    (fun '(embeddings, n) txt =>
       (embeddings ++ [embed_text n txt task_type], S n))
    batch st.

(** [embed_batch]: [range] raises on a zero step; with a negative
    step the range from 0 is empty.  Returns the embeddings and the
    number of requests made so far. *)
Definition embed_batch (n : nat) (texts : list evalue) (task_type : string)
    (batch_size : Z) : error + (list (option vector) * nat) :=
  if batch_size =? 0 then inl ValueError
  else
    inr (fold_left
           (fun st i =>
              embed_each task_type st (PySeq.slice texts i (i + batch_size)))
           (PySeq.range 0 (Z.of_nat (length texts)) batch_size)
           ([], n)).

(** [[chunk['text'] for chunk in chunks]]. *)
Fixpoint texts_of (chunks : list (gmap string evalue))
  : error + list evalue :=
  match chunks with
  | [] => inr []
  | c :: cs =>
      match c !! "text" with
      | None => inl KeyError
      | Some t =>
          match texts_of cs with
          | inl e => inl e
          | inr ts => inr (t :: ts)
          end
      end
  end.

Definition of_answer (o : option vector) : evalue :=
  match o with
  | Some v => EVec v
  | None => ENone
  end.

(** [for i, chunk in enumerate(chunks): chunk['embedding'] = embeddings[i]]. *)
Fixpoint attach (i : nat) (chunks : list (gmap string evalue))
    (embeddings : list (option vector)) : error + list (gmap string evalue) :=
  match chunks with
  | [] => inr []
  | c :: cs =>
      match embeddings !! i with
      | None => inl IndexError
      | Some o =>
          match attach (S i) cs embeddings with
          | inl e => inl e
          | inr cs' => inr (<["embedding" := of_answer o]> c :: cs')
          end
      end
  end.

(** [[c for c in chunks if c['embedding'] is not None]]. *)
Fixpoint successful (chunks : list (gmap string evalue))
  : error + list (gmap string evalue) :=
  match chunks with
  | [] => inr []
  | c :: cs =>
      match c !! "embedding" with
      | None => inl KeyError
      | Some v =>
          match successful cs with
          | inl e => inl e
          | inr out =>
              inr match v with ENone => out | _ => c :: out end
          end
      end
  end.

(** [embed_chunks]; [embed_batch] runs with its default batch size. *)
Definition embed_chunks (n : nat) (chunks : list (gmap string evalue))
  : error + (list (gmap string evalue) * nat) :=
  match texts_of chunks with
  | inl e => inl e
  | inr texts =>
      match embed_batch n texts "retrieval_document" 10 with
      | inl e => inl e
      | inr (embeddings, n') =>
          match attach 0 chunks embeddings with
          | inl e => inl e
          | inr chunks' =>
              match successful chunks' with
              | inl e => inl e
              | inr out => inr (out, n')
              end
          end
      end
  end.

(** One entry of the parallel lists [ids], [embeddings], [documents]
    and [metadatas] of [add_documents]; the four lists grow and are
    sliced together. *)
Record row : Type := {
  r_id : evalue;
  r_embedding : evalue;
  r_document : evalue;
  r_metadata : gmap string evalue
}.

(** [chunk.get(key, default)]. *)
Definition get (c : gmap string evalue) (key : string) (default : evalue)
  : evalue :=
  match c !! key with
  | Some v => v
  | None => default
  end.

(** [chunk.get('embedding') is None]. *)
Definition no_embedding (c : gmap string evalue) : bool :=
  match c !! "embedding" with
  | None | Some ENone => true
  | Some _ => false
  end.

Definition metadata_of (c : gmap string evalue) : gmap string evalue :=
  <["token_count" := get c "token_count" (EVal (VInt 0))]>
  (<["chunk_index" := get c "chunk_index" (EVal (VInt 0))]>
  (<["section_title" := get c "section_title" (EVal (VStr ""))]>
  (<["source_file" := get c "source_file" (EVal (VStr ""))]>
  (<["page_number" := get c "page_number" (EVal (VInt 0))]> ∅)))).

(** The first loop of [add_documents]. *)
Fixpoint collect (chunks : list (gmap string evalue)) : error + list row :=
  match chunks with
  | [] => inr []
  | c :: cs =>
      if no_embedding c then collect cs
      else
        match c !! "chunk_id" with
        | None => inl KeyError
        | Some id =>
            match c !! "text" with
            | None => inl KeyError
            | Some t =>
                match collect cs with
                | inl e => inl e
                | inr rows =>
                    inr ({| r_id := id;
                            (* the key is there: [no_embedding c] is false *)
                            r_embedding := get c "embedding" ENone;
                            r_document := t;
                            r_metadata := metadata_of c |} :: rows)
                end
            end
        end
  end.

(** [add_documents]: the number of rows and the batches handed to
    [collection.add], in order. *)
Definition add_documents (chunks : list (gmap string evalue))
  : error + (nat * list (list row)) :=
  match collect chunks with
  | inl e => inl e
  | inr rows =>
      let batch_size := 100 in
      let total := Z.of_nat (length rows) in
      inr (length rows,
           map (fun i =>
                  let batch_end := Z.min (i + batch_size) total in
                  PySeq.slice rows i batch_end)
               (PySeq.range 0 total batch_size))
  end.

(** A chunk of [smart_chunk] as the consumers see it. *)
Definition lift (d : gmap string value) : gmap string evalue :=
  EVal <$> d.

End Services.

Arguments EVal {vector} v.
Arguments EVec {vector} e.
Arguments ENone {vector}.
Arguments embed_text {vector} embed_content n txt task_type.
Arguments embed_each {vector} embed_content task_type st batch.
Arguments embed_batch {vector} embed_content n texts task_type batch_size.
Arguments texts_of {vector} chunks.
Arguments of_answer {vector} o.
Arguments attach {vector} i chunks embeddings.
Arguments successful {vector} chunks.
Arguments embed_chunks {vector} embed_content n chunks.
Arguments r_id {vector} r.
Arguments r_embedding {vector} r.
Arguments r_document {vector} r.
Arguments r_metadata {vector} r.
Arguments get {vector} c key default.
Arguments no_embedding {vector} c.
Arguments metadata_of {vector} c.
Arguments collect {vector} chunks.
Arguments add_documents {vector} chunks.

End Downstream.

(** ** Concrete instances used to run the model *)

(** A tokenizer whose units are characters. *)
Definition char_tokenizer : Tokenizer :=
  {| token := ascii;
     encode := list_ascii_of_string;
     decode := string_of_list_ascii |}.

Definition char_chunker (size overlap : Z) : DocumentChunker :=
  {| chunk_size := size; chunk_overlap := overlap; encoding := char_tokenizer |}.

(** A tokenizer whose units are words: maximal runs of characters
    that are not blank. *)
Definition word_tokenizer : Tokenizer :=
  {| token := string;
     encode := String.words;
     decode := PyStr.join " " |}.

Definition word_chunker (size overlap : Z) : DocumentChunker :=
  {| chunk_size := size; chunk_overlap := overlap; encoding := word_tokenizer |}.

Definition blank_line_str : string :=
  String PyStr.newline (String PyStr.newline EmptyString).

(** Two paragraphs of 5 and 8 characters around a blank line. *)
Definition two_paragraphs : string :=
  "aaaaa" +:+ blank_line_str +:+ "bbbbbbbb".

(** Two paragraphs of 5 and 8 words around a blank line. *)
Definition spaced_paragraphs : string :=
  "a a a a a" +:+ blank_line_str +:+ "b b b b b b b b".

Definition ten_blanks : string := "          ".

Definition token_count_12 : gmap string value :=
  <["token_count" := VInt 12]> ∅.

Definition chunk_id_x : gmap string value :=
  <["chunk_id" := VStr "x"]> (<["source" := VStr "lease.pdf"]> ∅).

Definition hello_dict : gmap string value :=
  enrich (Some chunk_id_x) 0
    (as_dict (_create_chunk_dict (char_chunker 1000 200) "hello world!" 0
                "paragraph" None)).

(** A lease of two titled sections. *)
Definition titled_document : string :=
  "SECTION 1. Rent" +:+ String PyStr.newline "The tenant pays the rent."
  +:+ String PyStr.newline "DEFINITIONS"
  +:+ String PyStr.newline "Words mean what they say.".

(** Its two headers. *)
Definition titled_matches : list header_match :=
  [ {| m_start := 0; m_end := 16; m_title := "SECTION 1. Rent" |};
    {| m_start := 41; m_end := 54; m_title := "DEFINITIONS" |} ].

(** What [smart_chunk] makes of it. *)
Definition titled_chunks : list (gmap string value) :=
  match smart_chunk (char_chunker 1000 200) titled_document None with
  | inr out => out
  | inl _ => []
  end.


(** The chunk [hello_dict] with an embedding. *)
Definition hello_embedded : gmap string (Downstream.evalue nat) :=
  <["embedding" := Downstream.EVec 7%nat]> (Downstream.lift nat hello_dict).

(** A lease of three titled sections, the second of nine characters. *)
Definition gapped_document : string :=
  "SECTION 1. Rent" +:+ String PyStr.newline "The tenant pays the rent."
  +:+ String PyStr.newline "NOTE"
  +:+ String PyStr.newline "n/a"
  +:+ String PyStr.newline "SECTION 2. Term"
  +:+ String PyStr.newline "One year from signing.".

(** What [smart_chunk] makes of it. *)
Definition gapped_chunks : list (gmap string value) :=
  match smart_chunk (char_chunker 1000 200) gapped_document None with
  | inr out => out
  | inl _ => []
  end.

(** The chunk of the empty text under metadata that carries a
    [token_count]. *)
Definition empty_dict : gmap string value :=
  enrich (Some token_count_12) 0
    (as_dict (_create_chunk_dict (char_chunker 1000 200) "" 0
                "paragraph" None)).

(** * Verification

    Everything below is stated for an arbitrary chunker [self]: any
    budget, any overlap, any tokenizer. *)

Section Verification.

Variable self : DocumentChunker.

(** ** Vocabulary of the statements *)

(** *** Splitters *)

(** What [_create_chunk_dict(chunk_text, -1, {"strategy": "token"})]
    yields. *)
Definition token_window (c : chunk) : Prop :=
  start_char c = -1
  /\ end_char c = PyStr.len (text c) - 1
  /\ strategy c = "token"
  /\ section_title c = None.

(** The text of a flushed group: its paragraphs joined by a blank
    line. *)
Definition group_text (group : list para_info) : string :=
  PyStr.join blank_blank (map para_text group).

(** The provenance of a chunk of the paragraph splitter. *)
Definition paragraph_kind (c : chunk) : Prop :=
  (strategy c = "paragraph" \/ strategy c = "paragraph_subsplit")
  /\ section_title c = None.

(** *** The paragraph loop with its groups on record

    The same loop as [chunk_by_paragraphs], keeping next to every chunk
    the paragraph group it was flushed from ([None] for a window of an
    oversized paragraph).  [chunk_by_paragraphs_log_erase] below shows
    that dropping the record gives [chunk_by_paragraphs] back. *)
Record lstate : Type := {
  log : list (chunk * option (list para_info));
  l_chunk : list para_info;
  l_tokens : Z
}.

(** [flush], remembering the group. *)
Definition flush_log (lg : list (chunk * option (list para_info)))
    (group : list para_info) : list (chunk * option (list para_info)) :=
  match group with
  | [] => lg
  | first :: _ =>
      lg ++ [(_create_chunk_dict self (group_text group)
                (Z.of_nat (para_start first)) "paragraph" None, Some group)]
  end.

(** [para_step], remembering the groups. *)
Definition para_step_log (st : lstate) (para : para_info) : lstate :=
  let p_text := para_text para in
  let p_tokens := count_tokens self p_text in
  let st1 :=
    if (l_tokens st + p_tokens >? chunk_size self) && nonempty (l_chunk st)
    then
      let '(new_chunk, overlap_tokens) :=
        overlap_loop self (rev (l_chunk st)) [] 0 in
      {| log := flush_log (log st) (l_chunk st);
         l_chunk := new_chunk;
         l_tokens := overlap_tokens |}
    else st in
  if p_tokens >? chunk_size self then
    let st2 :=
      if nonempty (l_chunk st1)
      then {| log := flush_log (log st1) (l_chunk st1);
              l_chunk := [];
              l_tokens := 0 |}
      else st1 in
    {| log := log st2
              ++ map (fun sc => (subsplit para sc, None))
                   (chunk_by_tokens self p_text);
       l_chunk := l_chunk st2;
       l_tokens := l_tokens st2 |}
  else
    {| log := log st1;
       l_chunk := l_chunk st1 ++ [para];
       l_tokens := l_tokens st1 + p_tokens |}.

(** [chunk_by_paragraphs], remembering the groups. *)
Definition chunk_by_paragraphs_log (txt : string)
  : list (chunk * option (list para_info)) :=
  let paragraphs := Re.split Re.blank_line txt in
  let para_infos := build_para_infos txt paragraphs 0 in
  let st :=
    fold_left para_step_log para_infos
      {| log := []; l_chunk := []; l_tokens := 0 |} in
  if nonempty (l_chunk st)
  then flush_log (log st) (l_chunk st)
  else log st.

(** Forgetting the record gives back the state of the source loop. *)
Definition erase (st : lstate) : pstate :=
  {| chunks := map fst (log st);
     current_chunk := l_chunk st;
     current_tokens := l_tokens st |}.

(** The paragraphs carried over a flush, and the token total of a
    group as the loop counts it. *)
Definition overlap_of (group : list para_info) : list para_info :=
  fst (overlap_loop self (rev group) [] 0).

(** The token total of a group, paragraph by paragraph. *)
Definition group_tokens (group : list para_info) : Z :=
  fold_right (fun p acc => count_tokens self (para_text p) + acc) 0 group.

(** Two neighbouring log entries that both stem from a flushed group:
    the second group starts with what the first carried over. *)
Definition linked (a b : option (list para_info)) : Prop :=
  match a, b with
  | Some g1, Some g2 => exists rest, g2 = overlap_of g1 ++ rest
  | _, _ => True
  end.

(** Every two neighbours of a list of provenances are linked. *)
Fixpoint chained (l : list (option (list para_info))) : Prop :=
  match l with
  | a :: t =>
      match t with
      | b :: _ => linked a b /\ chained t
      | [] => True
      end
  | [] => True
  end.

(** The provenances of a log. *)
Definition groups (lg : list (chunk * option (list para_info)))
  : list (option (list para_info)) := map snd lg.

(** What the loop maintains between two paragraphs. *)
Definition log_inv (st : lstate) : Prop :=
  chained (groups (log st))
  /\ (forall g, last (groups (log st)) = Some (Some g) ->
        exists rest, l_chunk st = overlap_of g ++ rest)
  /\ (l_chunk st <> [] -> 0 <= chunk_size self).

(** The [para_infos] list of a text. *)
Definition paragraphs_of (txt : string) : list para_info :=
  build_para_infos txt (Re.split Re.blank_line txt) 0.

(** Every entry of the log pairs a chunk with its provenance: a chunk
    tagged [paragraph] is the join of a non-empty group of whole
    paragraphs of the text, any other chunk is a re-tagged window. *)
Definition entry_ok (paras : list para_info)
    (e : chunk * option (list para_info)) : Prop :=
  match snd e with
  | Some g =>
      strategy (fst e) = "paragraph"
      /\ text (fst e) = group_text g
      /\ g <> []
      /\ Forall (fun p => p ∈ paras) g
  | None => strategy (fst e) = "paragraph_subsplit"
  end.

(** Well-formed entries, and a pending group made of paragraphs of
    the text. *)
Definition log_ok (paras : list para_info) (st : lstate) : Prop :=
  Forall (entry_ok paras) (log st)
  /\ Forall (fun p => p ∈ paras) (l_chunk st).

(** [metadata.get(k)] for the optional caller metadata. *)
Definition md_lookup (metadata : option (gmap string value)) (k : string)
  : option value :=
  match metadata with
  | Some md => md !! k
  | None => None
  end.

(** *** Orchestrator *)

(** A string of decimal digits. *)
Fixpoint digits (s : string) : bool :=
  match s with
  | EmptyString => true
  | String c s' => Re.digit c && digits s'
  end.

(** A pattern that cannot start on blank text. *)
Definition blank_rejected (r : Re.regex) : Prop :=
  forall pos s k, PyStr.all_space s = true -> Re.run r pos s k = None.

(** The chunks [smart_chunk] hands to [optimize_chunks]. *)
Definition final_chunks (txt : string) (metadata : option (gmap string value))
  : list (gmap string value) :=
  imap (fun i c => enrich metadata i (as_dict c)) (chunk_by_sections self txt).

(** [chunk["chunk_id"]], if present. *)
Definition chunk_id_of (d : gmap string value) : option value :=
  d !! "chunk_id".

(** The running total is the total of the pending group, and neither
    it nor any flushed group exceeds the budget plus the overlap. *)
Definition budget_inv (st : lstate) : Prop :=
  l_tokens st = group_tokens (l_chunk st)
  /\ (l_chunk st <> [] ->
      0 <= chunk_size self
      /\ l_tokens st <= chunk_size self + chunk_overlap self)
  /\ Forall (fun e => forall g, snd e = Some g ->
                      group_tokens g <= chunk_size self + chunk_overlap self)
            (log st).

(** *** Token windows *)

(** The window starts the loop of [chunk_by_tokens] gets to: the range
    up to and including the first start whose window reaches the end
    of the tokens. *)
Fixpoint visited (size total : Z) (indices : list Z) : list Z :=
  match indices with
  | [] => []
  | i :: rest =>
      if i + size >=? total then [i] else i :: visited size total rest
  end.

Definition window_starts (txt : string) : list Z :=
  let total := Z.of_nat (length (encode (encoding self) txt)) in
  visited (chunk_size self) total (PySeq.range 0 total (step self)).

(** The chunk made of the window that starts at token [i]. *)
Definition window_chunk (txt : string) (i : Z) : chunk :=
  _create_chunk_dict self
    (decode (encoding self)
       (PySeq.slice (encode (encoding self) txt) i (i + chunk_size self)))
    (-1) "token" None.

(** The test of [optimize_chunks] on one chunk: kept when its
    [token_count] is an integer that is not below 10. *)
Definition kept (d : gmap string value) : bool :=
  match d !! "token_count" with
  | Some (VInt n) => negb (n <? 10)
  | _ => false
  end.

(** *** Header matches *)

(** A continuation entered [n] characters further right in the same
    text answers [e]. *)
Definition advances (pos : nat) (s : string) (k : Re.cont) (e : nat) : Prop :=
  exists n, (n <= String.length s)%nat
            /\ k (pos + n)%nat (PyStr.drop n s) = Some e.

(** The section texts [chunk_by_sections] slices out of the document:
    from each kept header match to the next one, the last to the end. *)
Fixpoint section_texts (txt : string) (ums : list header_match)
  : list string :=
  match ums with
  | [] => []
  | m :: rest =>
      PyStr.slice txt (m_start m)
        match rest with
        | m' :: _ => m_start m'
        | [] => String.length txt
        end
        :: section_texts txt rest
  end.

(** *** Paragraph offsets *)

(** Spans that follow each other from [from] on, inside a text of
    length [len]. *)
Fixpoint ordered (len from : nat) (ms : list (nat * nat)) : Prop :=
  match ms with
  | [] => (from <= len)%nat
  | (b, e) :: ms' => (from <= b)%nat /\ (b <= e)%nat /\ ordered len e ms'
  end.

(** The paragraph occurs in the text at its recorded start. *)
Definition located (txt : string) (p : para_info) : Prop :=
  PyStr.slice txt (para_start p) (para_start p + String.length (para_text p))
  = para_text p.

(** What [build_para_infos] yields on the pieces of a split: located
    paragraphs whose starts never step back over a paragraph. *)
Fixpoint in_order (from : nat) (ps : list para_info) : Prop :=
  match ps with
  | [] => True
  | p :: ps' =>
      (from <= para_start p)%nat
      /\ in_order (para_start p + String.length (para_text p)) ps'
  end.

(** *** Downstream *)

(** The embedding service of the session and its vectors. *)
Variable vector : Type.
Variable embed_content :
  nat -> Downstream.evalue vector -> string -> option vector.

(** The answer to the request made for chunk number [k] when [n]
    requests went before. *)
Definition answer (n k : nat) (c : gmap string (Downstream.evalue vector))
  : option vector :=
  embed_content (n + k)%nat (Downstream.get c "text" Downstream.ENone)
    "retrieval_document".

(** Every chunk with the answer to its request stored under
    [embedding]. *)
Definition embedded (n : nat)
    (chunks : list (gmap string (Downstream.evalue vector)))
  : list (gmap string (Downstream.evalue vector)) :=
  imap (fun k c =>
          <["embedding" := Downstream.of_answer (answer n k c)]> c) chunks.

(** The chunk holds an embedding that is not [None]. *)
Definition succeeded (c : gmap string (Downstream.evalue vector)) : bool :=
  negb (Downstream.no_embedding c).

(** The row [add_documents] builds from a chunk with an embedding. *)
Definition row_of (c : gmap string (Downstream.evalue vector))
  : Downstream.row vector :=
  {| Downstream.r_id := Downstream.get c "chunk_id" Downstream.ENone;
     Downstream.r_embedding := Downstream.get c "embedding" Downstream.ENone;
     Downstream.r_document := Downstream.get c "text" Downstream.ENone;
     Downstream.r_metadata := Downstream.metadata_of c |}.



(** The code of [smart_chunk] that follows the call of the splitter,
    run on the chunks [cs] the splitter returned. *)
Definition merge_and_filter (metadata : option (gmap string value))
    (cs : list chunk) : py_error + list (gmap string value) :=
  optimize_chunks (imap (fun i c => enrich metadata i (as_dict c)) cs).

(** ** The token-window splitter *)

Section TokenWindows.

Lemma tokens_loop_Forall (P : chunk -> Prop) tokens indices acc :
  (forall txt, P (_create_chunk_dict self txt (-1) "token" None)) ->
  Forall P acc ->
  Forall P (tokens_loop self tokens indices acc).
Proof.
  intros HP. revert acc.
  induction indices as [|i rest IH]; intros acc Hacc; simpl; [assumption|].
  assert (Forall P (acc ++ [_create_chunk_dict self
            (decode (encoding self)
               (PySeq.slice tokens i (i + chunk_size self))) (-1) "token" None]))
    as Hnext by (apply Forall_app; split; [assumption|repeat constructor; apply HP]).
  destruct (_ >=? _); [exact Hnext|apply IH, Hnext].
Qed.

Lemma tokens_loop_length tokens indices acc :
  (length (tokens_loop self tokens indices acc)
   <= length acc + length indices)%nat.
Proof.
  revert acc. induction indices as [|i rest IH]; intros acc; simpl; [lia|].
  destruct (_ >=? _).
  - rewrite length_app. simpl. lia.
  - etransitivity; [apply IH|]. rewrite length_app. simpl. lia.
Qed.

Lemma tokens_loop_acc_nonempty tokens indices acc :
  acc <> [] -> tokens_loop self tokens indices acc <> [].
Proof.
  revert acc. induction indices as [|i rest IH]; intros acc Hacc; simpl;
    [assumption|].
  destruct (_ >=? _); [destruct acc; discriminate|].
  apply IH. destruct acc; discriminate.
Qed.

Lemma tokens_loop_nonempty tokens i rest acc :
  tokens_loop self tokens (i :: rest) acc <> [].
Proof.
  simpl. destruct (_ >=? _); [destruct acc; discriminate|].
  apply tokens_loop_acc_nonempty. destruct acc; discriminate.
Qed.

Lemma step_floor : step self = Z.max (chunk_size self - chunk_overlap self) 1.
Proof. unfold step. destruct (Z.leb_spec (chunk_size self - chunk_overlap self) 0); lia. Qed.

Lemma step_pos : 1 <= step self.
Proof. rewrite step_floor. lia. Qed.

Lemma range_from_lookup n i st k :
  (k < n)%nat -> PySeq.range_from n i st !! k = Some (i + Z.of_nat k * st).
Proof.
  revert i k. induction n as [|n IH]; intros i k Hk; [lia|].
  destruct k as [|k]; simpl.
  - f_equal. lia.
  - rewrite IH by lia. f_equal. lia.
Qed.

Lemma range_from_length n i st : length (PySeq.range_from n i st) = n.
Proof. revert i. induction n as [|n IH]; intros i; simpl; [reflexivity|]. now rewrite IH. Qed.

Lemma range_length_le total st :
  1 <= st -> 0 <= total ->
  (length (PySeq.range 0 total st) <= Z.to_nat total)%nat.
Proof.
  intros Hst Htot. unfold PySeq.range.
  destruct (Z.ltb_spec 0 st); [|lia]. simpl.
  destruct (Z.ltb_spec 0 total); simpl; [|lia].
  rewrite range_from_length.
  assert ((total - 0 - 1) / st <= total - 1).
  { transitivity ((total - 0 - 1) / 1).
    - apply Z.div_le_compat_l; lia.
    - rewrite Z.div_1_r. lia. }
  assert (0 <= (total - 0 - 1) / st) by (apply Z.div_pos; lia).
  lia.
Qed.

Lemma range_lookup total st k i :
  PySeq.range 0 total st !! k = Some i -> i = Z.of_nat k * st /\ 0 <= i < total.
Proof.
  unfold PySeq.range.
  destruct (Z.ltb_spec 0 st); simpl; [|intros H'; rewrite lookup_nil in H'; discriminate].
  destruct (Z.ltb_spec 0 total); simpl; [|intros H'; rewrite lookup_nil in H'; discriminate].
  intros Hk.
  assert (k < Z.to_nat ((total - 0 - 1) / st + 1))%nat as Hlt.
  { apply lookup_lt_Some in Hk. now rewrite range_from_length in Hk. }
  rewrite range_from_lookup in Hk by exact Hlt.
  injection Hk as <-.
  assert (0 <= (total - 0 - 1) / st) by (apply Z.div_pos; lia).
  assert (Z.of_nat k <= (total - 0 - 1) / st) by lia.
  assert (st * ((total - 0 - 1) / st) <= total - 0 - 1)
    by (apply Z.mul_div_le; lia).
  split; [lia|]. nia.
Qed.

(** C10: every chunk returned by [chunk_by_tokens] carries the
    unknown-offset sentinel [-1] as [start_char], hence
    [len(text) - 1] as [end_char], and the strategy tag [token]. *)
Theorem chunk_by_tokens_sentinel (txt : string) :
  Forall (fun c => start_char c = -1
                   /\ end_char c = PyStr.len (text c) - 1
                   /\ strategy c = "token")
         (chunk_by_tokens self txt).
Proof.
  unfold chunk_by_tokens.
  apply tokens_loop_Forall; [|constructor].
  intros w. simpl. repeat split. lia.
Qed.

(** C5: the window stride of [chunk_by_tokens] is
    [max(chunk_size - chunk_overlap, 1)], never below 1, also when
    the overlap is not smaller than the size; the loop visits the
    strictly increasing indices [0, step, 2*step, ...] below the
    number of tokens, so it runs at most once per token and returns
    at most that many chunks. *)
Theorem chunk_by_tokens_terminates (txt : string) :
  let tokens := encode (encoding self) txt in
  let total := Z.of_nat (length tokens) in
  step self = Z.max (chunk_size self - chunk_overlap self) 1
  /\ 1 <= step self
  /\ (forall k i, PySeq.range 0 total (step self) !! k = Some i ->
                  i = Z.of_nat k * step self /\ 0 <= i < total)
  /\ (length (PySeq.range 0 total (step self)) <= length tokens)%nat
  /\ (length (chunk_by_tokens self txt) <= length tokens)%nat.
Proof.
  intros tokens total.
  assert (length (PySeq.range 0 total (step self)) <= length tokens)%nat as Hlen.
  { pose proof (range_length_le total (step self) step_pos) as H.
    subst total. rewrite Nat2Z.id in H. apply H. lia. }
  split; [apply step_floor|].
  split; [apply step_pos|].
  split; [intros k i; apply range_lookup|].
  split; [exact Hlen|].
  unfold chunk_by_tokens. fold tokens. fold total.
  etransitivity; [apply tokens_loop_length|]. simpl. exact Hlen.
Qed.

End TokenWindows.

(** ** The paragraph splitter and the section fallback *)

Section Paragraphs.

Lemma flush_cons cs p group :
  flush self cs (p :: group)
  = cs ++ [_create_chunk_dict self (group_text (p :: group))
             (Z.of_nat (para_start p)) "paragraph" None].
Proof. reflexivity. Qed.

Lemma nonempty_true {A} (l : list A) : nonempty l = true <-> l <> [].
Proof. destruct l; simpl; split; congruence. Qed.

(** A property that holds of every flushed group and of every
    re-tagged token window holds of every chunk of the splitter. *)
Section Invariant.

Variable P : chunk -> Prop.
Hypothesis P_group :
  forall txt start, P (_create_chunk_dict self txt start "paragraph" None).
Hypothesis P_sub :
  forall para sc, token_window sc -> P (subsplit para sc).

Lemma flush_Forall cs group :
  Forall P cs -> Forall P (flush self cs group).
Proof.
  intros H. destruct group as [|p group]; [exact H|].
  rewrite flush_cons. apply Forall_app. split; [exact H|].
  repeat constructor. apply P_group.
Qed.

Lemma subsplit_Forall para txt :
  Forall P (map (subsplit para) (chunk_by_tokens self txt)).
Proof.
  apply Forall_map.
  unfold chunk_by_tokens.
  apply tokens_loop_Forall; [|constructor].
  intros w. apply P_sub. repeat split. simpl. lia.
Qed.

Lemma para_step_Forall st para :
  Forall P (chunks st) -> Forall P (chunks (para_step self st para)).
Proof.
  intros H. unfold para_step.
  set (p_tokens := count_tokens self (para_text para)).
  destruct ((current_tokens st + p_tokens >? chunk_size self)
            && nonempty (current_chunk st)).
  - destruct (overlap_loop self (rev (current_chunk st)) [] 0) as [nc ot].
    destruct (p_tokens >? chunk_size self); simpl.
    + destruct (nonempty nc); simpl.
      * apply Forall_app. split; [|apply subsplit_Forall].
        now apply flush_Forall, flush_Forall.
      * apply Forall_app. split; [|apply subsplit_Forall].
        now apply flush_Forall.
    + now apply flush_Forall.
  - destruct (p_tokens >? chunk_size self); simpl; [|exact H].
    destruct (nonempty (current_chunk st)); simpl.
    + apply Forall_app. split; [|apply subsplit_Forall].
      now apply flush_Forall.
    + apply Forall_app. split; [exact H|apply subsplit_Forall].
Qed.

Lemma para_fold_Forall paras st :
  Forall P (chunks st) ->
  Forall P (chunks (fold_left (para_step self) paras st)).
Proof.
  revert st. induction paras as [|para paras IH]; intros st H; simpl;
    [exact H|].
  apply IH, para_step_Forall, H.
Qed.

Lemma chunk_by_paragraphs_Forall txt :
  Forall P (chunk_by_paragraphs self txt).
Proof.
  unfold chunk_by_paragraphs.
  match goal with
  | |- context [fold_left ?f ?l ?i] =>
      pose proof (para_fold_Forall l i (List.Forall_nil _)) as H;
      set (st := fold_left f l i) in *
  end.
  destruct (nonempty (current_chunk st)); [apply flush_Forall|]; exact H.
Qed.

End Invariant.

Lemma chunk_by_paragraphs_kind txt :
  Forall paragraph_kind (chunk_by_paragraphs self txt).
Proof.
  apply chunk_by_paragraphs_Forall.
  - intros t st. split; [left|]; reflexivity.
  - intros para sc (_ & _ & _ & Ht). split; [right; reflexivity|exact Ht].
Qed.

Lemma no_headers_delegates txt :
  Re.finditer Re.section_pattern txt = [] ->
  Re.finditer Re.numbered_pattern txt = [] ->
  Re.finditer Re.header_caps_pattern txt = [] ->
  chunk_by_sections self txt = chunk_by_paragraphs self txt.
Proof.
  intros H1 H2 H3.
  unfold chunk_by_sections, unique_matches, all_matches, matches_of.
  rewrite H1, H2, H3. reflexivity.
Qed.

(** The windows of an oversized paragraph keep the [end_char] they
    were created with. *)
Lemma subsplit_chunks_offsets txt :
  Forall (fun c => strategy c = "paragraph_subsplit" ->
                   0 <= start_char c
                   /\ end_char c = PyStr.len (text c) - 1)
         (chunk_by_paragraphs self txt).
Proof.
  apply chunk_by_paragraphs_Forall.
  - intros t st Hs. discriminate Hs.
  - intros para sc (_ & Hend & _ & _) _. simpl. split; [lia|exact Hend].
Qed.

(** C6: when none of the three header patterns matches anywhere in
    the text, [chunk_by_sections] returns the list that
    [chunk_by_paragraphs] returns, unchanged; no chunk of it is
    tagged [section] or carries a [section_title]. *)
Theorem chunk_by_sections_no_headers (txt : string) :
  Re.finditer Re.section_pattern txt = [] ->
  Re.finditer Re.numbered_pattern txt = [] ->
  Re.finditer Re.header_caps_pattern txt = [] ->
  chunk_by_sections self txt = chunk_by_paragraphs self txt
  /\ Forall (fun c => strategy c <> "section" /\ section_title c = None)
            (chunk_by_sections self txt).
Proof.
  intros H1 H2 H3.
  pose proof (no_headers_delegates txt H1 H2 H3) as Heq.
  split; [exact Heq|].
  rewrite Heq.
  eapply Forall_impl; [apply chunk_by_paragraphs_kind|].
  intros c [[Hs|Hs] Ht]; (split; [rewrite Hs; discriminate|exact Ht]).
Qed.

End Paragraphs.

(** ** Overlap across a flush *)

Section ParagraphLog.

Lemma flush_log_erase lg group :
  map fst (flush_log lg group) = flush self (map fst lg) group.
Proof.
  destruct group as [|p group]; [reflexivity|].
  unfold flush_log. rewrite map_app. reflexivity.
Qed.

Lemma para_step_log_erase st para :
  erase (para_step_log st para) = para_step self (erase st) para.
Proof.
  unfold para_step_log, para_step, erase; simpl.
  set (p_tokens := count_tokens self (para_text para)).
  destruct ((l_tokens st + p_tokens >? chunk_size self) && nonempty (l_chunk st)).
  - destruct (overlap_loop self (rev (l_chunk st)) [] 0) as [nc ot]; simpl.
    destruct (p_tokens >? chunk_size self); simpl.
    + destruct (nonempty nc); simpl;
        rewrite map_app, map_map, ?flush_log_erase; reflexivity.
    + rewrite flush_log_erase. reflexivity.
  - destruct (p_tokens >? chunk_size self); simpl; [|reflexivity].
    destruct (nonempty (l_chunk st)); simpl;
      rewrite map_app, map_map, ?flush_log_erase; reflexivity.
Qed.

Lemma para_fold_log_erase paras st :
  erase (fold_left para_step_log paras st)
  = fold_left (para_step self) paras (erase st).
Proof.
  revert st. induction paras as [|para paras IH]; intros st; simpl;
    [reflexivity|].
  rewrite IH, para_step_log_erase. reflexivity.
Qed.

Lemma chunk_by_paragraphs_log_erase txt :
  map fst (chunk_by_paragraphs_log txt) = chunk_by_paragraphs self txt.
Proof.
  unfold chunk_by_paragraphs_log, chunk_by_paragraphs.
  change {| chunks := []; current_chunk := []; current_tokens := 0 |}
    with (erase {| log := []; l_chunk := []; l_tokens := 0 |}).
  rewrite <- para_fold_log_erase.
  set (st := fold_left para_step_log _ _).
  simpl. destruct (nonempty (l_chunk st)); [apply flush_log_erase|reflexivity].
Qed.

Lemma group_tokens_app g1 g2 :
  group_tokens (g1 ++ g2) = group_tokens g1 + group_tokens g2.
Proof. induction g1 as [|p g1 IH]; simpl; [reflexivity|]. rewrite IH. lia. Qed.

Lemma group_tokens_rev g : group_tokens (rev g) = group_tokens g.
Proof.
  induction g as [|p g IH]; simpl; [reflexivity|].
  rewrite group_tokens_app, IH. simpl. lia.
Qed.

Lemma overlap_loop_spec reversed acc t nc ot :
  overlap_loop self reversed acc t = (nc, ot) ->
  exists taken rest,
    reversed = taken ++ rest
    /\ nc = rev taken ++ acc
    /\ ot = t + group_tokens taken
    /\ (t <= chunk_overlap self -> ot <= chunk_overlap self)
    /\ (forall p rest', rest = p :: rest' ->
          ot + count_tokens self (para_text p) > chunk_overlap self).
Proof.
  revert acc t.
  induction reversed as [|old_p reversed IH]; intros acc t H; simpl in H.
  - injection H as <- <-. exists [], []. simpl.
    repeat split; try lia. intros p rest' Hnil. discriminate.
  - destruct (Z.leb_spec (t + count_tokens self (para_text old_p))
                (chunk_overlap self)) as [Hfit|Hover].
    + apply IH in H as (taken & rest & -> & -> & -> & Hle & Hmax).
      exists (old_p :: taken), rest. simpl.
      rewrite <- app_assoc. simpl.
      repeat split; try lia. exact Hmax.
    + injection H as <- <-. exists [], (old_p :: reversed). simpl.
      repeat split; try lia.
      intros p rest' Heq. injection Heq as <- _. lia.
Qed.

(** The carried paragraphs are the longest run at the end of the
    group that fits the overlap budget. *)
Lemma overlap_of_spec group :
  exists dropped,
    group = dropped ++ overlap_of group
    /\ (0 <= chunk_overlap self ->
        group_tokens (overlap_of group) <= chunk_overlap self)
    /\ (forall p, last dropped = Some p ->
          group_tokens (overlap_of group) + count_tokens self (para_text p)
          > chunk_overlap self).
Proof.
  unfold overlap_of.
  destruct (overlap_loop self (rev group) [] 0) as [nc ot] eqn:E.
  apply overlap_loop_spec in E as (taken & rest & Hrev & -> & -> & Hle & Hmax).
  simpl. rewrite app_nil_r.
  exists (rev rest). split; [|split].
  - rewrite <- rev_app_distr, <- Hrev, rev_involutive. reflexivity.
  - intros H0. rewrite group_tokens_rev. lia.
  - intros p Hlast. rewrite group_tokens_rev.
    destruct rest as [|q rest'].
    + simpl in Hlast. discriminate.
    + simpl in Hlast. rewrite last_snoc in Hlast. injection Hlast as ->.
      specialize (Hmax p rest' eq_refl). lia.
Qed.

Lemma chained_snoc l b :
  chained l -> (forall a, last l = Some a -> linked a b) -> chained (l ++ [b]).
Proof.
  induction l as [|a l IH]; intros Hc Hl; simpl; [exact I|].
  destruct l as [|a' l]; simpl.
  - split; [apply Hl; reflexivity|exact I].
  - simpl in Hc. destruct Hc as [Hab Hc]. split; [exact Hab|].
    apply IH; [exact Hc|]. intros x Hx. apply Hl.
    rewrite last_cons_cons. exact Hx.
Qed.

Lemma chained_app_none l n :
  chained l -> chained (l ++ repeat None n).
Proof.
  revert l. induction n as [|n IH]; intros l Hc; simpl.
  - rewrite app_nil_r. exact Hc.
  - change (None :: repeat None n) with ([None] ++ repeat (@None (list para_info)) n).
    rewrite app_assoc. apply IH, chained_snoc; [exact Hc|].
    intros a _. destruct a; exact I.
Qed.

Lemma chained_lookup l i a b :
  chained l -> l !! i = Some a -> l !! S i = Some b -> linked a b.
Proof.
  revert i. induction l as [|x l IH]; intros i Hc Ha Hb; [discriminate|].
  destruct l as [|y l]; [discriminate|].
  simpl in Hc. destruct Hc as [Hxy Hc].
  destruct i as [|i].
  - simpl in Ha, Hb. injection Ha as <-. injection Hb as <-. exact Hxy.
  - apply (IH i Hc); assumption.
Qed.

Lemma lookup_map {A B} (f : A -> B) (l : list A) i x :
  l !! i = Some x -> map f l !! i = Some (f x).
Proof.
  revert i. induction l as [|y l IH]; intros [|i] H; try discriminate; simpl in *.
  - now injection H as ->.
  - apply IH, H.
Qed.

Lemma groups_flush_log lg p group :
  groups (flush_log lg (p :: group)) = groups lg ++ [Some (p :: group)].
Proof. unfold groups, flush_log. rewrite map_app. reflexivity. Qed.

Lemma groups_subsplit lg para cs :
  groups (lg ++ map (fun sc => (subsplit para sc, None)) cs)
  = groups lg ++ repeat None (length cs).
Proof.
  unfold groups. rewrite map_app, map_map. f_equal.
  induction cs as [|c cs IH]; simpl; [reflexivity|]. f_equal. exact IH.
Qed.

Lemma last_app_repeat_none (l : list (option (list para_info))) n g :
  n <> O -> last (l ++ repeat None n) <> Some (Some g).
Proof.
  intros Hn. destruct n as [|n]; [congruence|].
  replace (S n) with (n + 1)%nat by lia.
  rewrite repeat_app, app_assoc. simpl. rewrite last_snoc. discriminate.
Qed.

(** A paragraph that counts more tokens than a non-negative budget
    yields at least one window. *)
Lemma chunk_by_tokens_nonempty txt :
  0 < count_tokens self txt -> chunk_by_tokens self txt <> [].
Proof.
  intros Hpos. unfold chunk_by_tokens, count_tokens in *.
  destruct txt as [|c txt]; [lia|].
  set (tokens := encode (encoding self) (String c txt)) in *.
  unfold PySeq.range.
  pose proof step_pos as Hstep.
  destruct (Z.ltb_spec 0 (step self)); [|lia].
  destruct (Z.ltb_spec 0 (Z.of_nat (length tokens))); [|lia]. simpl.
  assert (0 <= (Z.of_nat (length tokens) - 0 - 1) / step self)
    by (apply Z.div_pos; lia).
  destruct (Z.to_nat _) as [|n] eqn:E; [lia|].
  simpl PySeq.range_from. apply tokens_loop_nonempty.
Qed.

Lemma count_tokens_nonneg txt : 0 <= count_tokens self txt.
Proof. unfold count_tokens. destruct txt; lia. Qed.

Lemma log_inv_flush_seed st ot :
  log_inv st -> l_chunk st <> [] ->
  log_inv {| log := flush_log (log st) (l_chunk st);
             l_chunk := overlap_of (l_chunk st);
             l_tokens := ot |}.
Proof.
  intros (Hc & Hlast & Hsize) Hne.
  destruct (l_chunk st) as [|p cur] eqn:E; [congruence|].
  unfold log_inv; cbn [log l_chunk l_tokens].
  rewrite groups_flush_log. split; [|split].
  - apply chained_snoc; [exact Hc|].
    intros [g|] Hg; simpl; [|exact I]. apply Hlast, Hg.
  - intros g Hg. rewrite last_snoc in Hg. injection Hg as <-.
    exists []. now rewrite app_nil_r.
  - intros _. apply Hsize. discriminate.
Qed.

Lemma log_inv_flush_sub st para cs :
  log_inv st -> l_chunk st <> [] -> cs <> [] ->
  log_inv {| log := flush_log (log st) (l_chunk st)
                    ++ map (fun sc => (subsplit para sc, None)) cs;
             l_chunk := [];
             l_tokens := 0 |}.
Proof.
  intros (Hc & Hlast & Hsize) Hne Hcs.
  destruct (l_chunk st) as [|p cur] eqn:E; [congruence|].
  unfold log_inv; cbn [log l_chunk l_tokens].
  rewrite groups_subsplit, groups_flush_log. split; [|split].
  - apply chained_app_none, chained_snoc; [exact Hc|].
    intros [g|] Hg; simpl; [|exact I]. apply Hlast, Hg.
  - intros g Hg. exfalso. revert Hg. apply last_app_repeat_none.
    destruct cs; [congruence|discriminate].
  - congruence.
Qed.

Lemma log_inv_sub st para cs :
  log_inv st -> l_chunk st = [] ->
  log_inv {| log := log st ++ map (fun sc => (subsplit para sc, None)) cs;
             l_chunk := l_chunk st;
             l_tokens := l_tokens st |}.
Proof.
  intros (Hc & Hlast & Hsize) Hnil.
  unfold log_inv; cbn [log l_chunk l_tokens].
  rewrite groups_subsplit. split; [|split].
  - apply chained_app_none, Hc.
  - intros g Hg. destruct cs as [|c cs].
    + simpl in Hg. rewrite app_nil_r in Hg. apply Hlast, Hg.
    + exfalso. revert Hg. apply last_app_repeat_none. discriminate.
  - exact Hsize.
Qed.

Lemma log_inv_append st para t :
  log_inv st ->
  count_tokens self (para_text para) <= chunk_size self ->
  log_inv {| log := log st; l_chunk := l_chunk st ++ [para]; l_tokens := t |}.
Proof.
  intros (Hc & Hlast & Hsize) Hfit.
  unfold log_inv; cbn [log l_chunk l_tokens]. split; [|split].
  - exact Hc.
  - intros g Hg. destruct (Hlast g Hg) as [rest ->].
    exists (rest ++ [para]). now rewrite app_assoc.
  - intros _. pose proof (count_tokens_nonneg (para_text para)). lia.
Qed.

Ltac red_lstate := cbn [log l_chunk l_tokens].

Lemma para_step_log_inv st para :
  log_inv st -> log_inv (para_step_log st para).
Proof.
  intros Hinv. unfold para_step_log.
  set (p_tokens := count_tokens self (para_text para)).
  assert (forall s, log_inv s -> l_chunk s <> [] ->
            (p_tokens >? chunk_size self) = true ->
            chunk_by_tokens self (para_text para) <> []) as Hsub.
  { intros s (_ & _ & Hsize) Hne Hbig.
    apply chunk_by_tokens_nonempty. fold p_tokens.
    specialize (Hsize Hne). lia. }
  destruct ((l_tokens st + p_tokens >? chunk_size self)
            && nonempty (l_chunk st)) eqn:Hflush.
  - apply andb_true_iff in Hflush as [_ Hne]. apply nonempty_true in Hne.
    pose proof (log_inv_flush_seed st
                  (snd (overlap_loop self (rev (l_chunk st)) [] 0)) Hinv Hne)
      as Hseed.
    unfold overlap_of in Hseed.
    destruct (overlap_loop self (rev (l_chunk st)) [] 0) as [nc ot].
    simpl fst in Hseed. simpl snd in Hseed.
    destruct (p_tokens >? chunk_size self) eqn:Hbig; red_lstate.
    + destruct (nonempty nc) eqn:Hnc; red_lstate.
      * apply nonempty_true in Hnc.
        apply (log_inv_flush_sub _ para _ Hseed Hnc).
        apply (Hsub _ Hseed Hnc eq_refl).
      * apply (log_inv_sub _ para _ Hseed).
        simpl. destruct nc; [reflexivity|discriminate].
    + apply (log_inv_append _ para _ Hseed). fold p_tokens. lia.
  - destruct (p_tokens >? chunk_size self) eqn:Hbig; red_lstate.
    + destruct (nonempty (l_chunk st)) eqn:Hcur; red_lstate.
      * apply nonempty_true in Hcur.
        apply (log_inv_flush_sub _ para _ Hinv Hcur).
        apply (Hsub _ Hinv Hcur eq_refl).
      * apply (log_inv_sub _ para _ Hinv).
        destruct (l_chunk st); [reflexivity|discriminate].
    + apply (log_inv_append _ para _ Hinv). fold p_tokens. lia.
Qed.

Lemma para_fold_log_inv paras st :
  log_inv st -> log_inv (fold_left para_step_log paras st).
Proof.
  revert st. induction paras as [|para paras IH]; intros st H; simpl;
    [exact H|].
  apply IH, para_step_log_inv, H.
Qed.

Lemma chunk_by_paragraphs_log_chained txt :
  chained (groups (chunk_by_paragraphs_log txt)).
Proof.
  unfold chunk_by_paragraphs_log.
  match goal with
  | |- context [fold_left ?f ?l ?i] =>
      assert (log_inv (fold_left f l i)) as (Hc & Hlast & _);
      [|set (st := fold_left f l i) in *]
  end.
  { apply para_fold_log_inv. repeat split; simpl; try exact I.
    - intros g Hg. discriminate.
    - congruence. }
  destruct (l_chunk st) as [|p cur] eqn:E; cbn [nonempty]; [exact Hc|].
  rewrite groups_flush_log. apply chained_snoc; [exact Hc|].
  intros [g|] Hg; simpl; [|exact I].
  apply Hlast, Hg.
Qed.

Lemma flush_log_ok paras lg group :
  Forall (entry_ok paras) lg ->
  Forall (fun p => p ∈ paras) group ->
  Forall (entry_ok paras) (flush_log lg group).
Proof.
  intros H Hg. destruct group as [|p group]; [exact H|].
  unfold flush_log. apply Forall_app. split; [exact H|].
  constructor; [|constructor].
  unfold entry_ok. simpl. repeat split; [discriminate|exact Hg].
Qed.

Lemma subsplit_log_ok paras lg para cs :
  Forall (entry_ok paras) lg ->
  Forall (entry_ok paras) (lg ++ map (fun sc => (subsplit para sc, None)) cs).
Proof.
  intros H. apply Forall_app. split; [exact H|].
  apply Forall_map, Forall_forall. intros c _. reflexivity.
Qed.

Lemma overlap_of_Forall (P : para_info -> Prop) group :
  Forall P group -> Forall P (overlap_of group).
Proof.
  destruct (overlap_of_spec group) as (dropped & Heq & _).
  intros H. rewrite Heq in H. apply Forall_app in H. apply H.
Qed.

Lemma para_step_log_ok paras st para :
  para ∈ paras -> log_ok paras st -> log_ok paras (para_step_log st para).
Proof.
  intros Hin [Hlog Hcur]. unfold para_step_log, log_ok.
  set (p_tokens := count_tokens self (para_text para)).
  pose proof (overlap_of_Forall _ _ Hcur) as Hseed. unfold overlap_of in Hseed.
  destruct ((l_tokens st + p_tokens >? chunk_size self)
            && nonempty (l_chunk st)).
  - destruct (overlap_loop self (rev (l_chunk st)) [] 0) as [nc ot].
    simpl fst in Hseed.
    destruct (p_tokens >? chunk_size self); red_lstate.
    + destruct (nonempty nc); red_lstate.
      * split; [|constructor].
        apply subsplit_log_ok, flush_log_ok; [|exact Hseed].
        apply flush_log_ok; assumption.
      * split; [|exact Hseed].
        apply subsplit_log_ok, flush_log_ok; assumption.
    + split; [apply flush_log_ok; assumption|].
      apply Forall_app. split; [exact Hseed|]. repeat constructor. exact Hin.
  - destruct (p_tokens >? chunk_size self); red_lstate.
    + destruct (nonempty (l_chunk st)); red_lstate.
      * split; [|constructor].
        apply subsplit_log_ok, flush_log_ok; assumption.
      * split; [|exact Hcur]. apply subsplit_log_ok, Hlog.
    + split; [exact Hlog|].
      apply Forall_app. split; [exact Hcur|]. repeat constructor. exact Hin.
Qed.

Lemma para_fold_log_ok paras todo st :
  Forall (fun p => p ∈ paras) todo ->
  log_ok paras st -> log_ok paras (fold_left para_step_log todo st).
Proof.
  revert st. induction todo as [|para todo IH]; intros st Hin H; simpl;
    [exact H|].
  apply Forall_cons in Hin as [Hp Hin].
  apply IH; [exact Hin|]. apply para_step_log_ok; assumption.
Qed.

Lemma chunk_by_paragraphs_log_ok txt :
  Forall (entry_ok (paragraphs_of txt)) (chunk_by_paragraphs_log txt).
Proof.
  unfold chunk_by_paragraphs_log. fold (paragraphs_of txt).
  assert (log_ok (paragraphs_of txt)
            (fold_left para_step_log (paragraphs_of txt)
               {| log := []; l_chunk := []; l_tokens := 0 |})) as [Hlog Hcur].
  { apply para_fold_log_ok.
    - apply Forall_forall. intros p Hp. exact Hp.
    - split; constructor. }
  set (st := fold_left para_step_log _ _) in *.
  destruct (nonempty (l_chunk st)); [apply flush_log_ok|]; assumption.
Qed.

(** C4: two chunks that [chunk_by_paragraphs] emits one after the
    other, both tagged [paragraph], are joins of groups of whole
    paragraphs of the text; the second group starts with the
    paragraphs carried over the flush, which are the last paragraphs
    of the first group, count at most [chunk_overlap] tokens together,
    and stop only where one more paragraph would exceed that budget
    (so nothing is carried when the last paragraph alone does not
    fit). *)
Theorem paragraph_overlap_bound (txt : string) :
  0 <= chunk_overlap self ->
  map fst (chunk_by_paragraphs_log txt) = chunk_by_paragraphs self txt
  /\ forall i c1 o1 c2 o2,
       chunk_by_paragraphs_log txt !! i = Some (c1, o1) ->
       chunk_by_paragraphs_log txt !! S i = Some (c2, o2) ->
       strategy c1 = "paragraph" ->
       strategy c2 = "paragraph" ->
       exists dropped keep rest,
         o1 = Some (dropped ++ keep)
         /\ o2 = Some (keep ++ rest)
         /\ text c1 = group_text (dropped ++ keep)
         /\ text c2 = group_text (keep ++ rest)
         /\ Forall (fun p => p ∈ paragraphs_of txt) (dropped ++ keep)
         /\ group_tokens keep <= chunk_overlap self
         /\ (forall p, last dropped = Some p ->
               group_tokens keep + count_tokens self (para_text p)
               > chunk_overlap self).
Proof.
  intros Hov. split; [apply chunk_by_paragraphs_log_erase|].
  intros i c1 o1 c2 o2 H1 H2 Hs1 Hs2.
  pose proof (chunk_by_paragraphs_log_ok txt) as Hok.
  pose proof (proj1 (Forall_lookup _ _) Hok _ _ H1) as Hok1.
  pose proof (proj1 (Forall_lookup _ _) Hok _ _ H2) as Hok2.
  unfold entry_ok in Hok1, Hok2. simpl in Hok1, Hok2.
  destruct o1 as [g1|]; [|rewrite Hs1 in Hok1; discriminate].
  destruct o2 as [g2|]; [|rewrite Hs2 in Hok2; discriminate].
  destruct Hok1 as (_ & Ht1 & _ & Hin1). destruct Hok2 as (_ & Ht2 & _ & _).
  assert (linked (Some g1) (Some g2)) as [rest Hrest].
  { apply (chained_lookup (groups (chunk_by_paragraphs_log txt)) i).
    - apply chunk_by_paragraphs_log_chained.
    - apply (lookup_map snd _ _ _ H1).
    - apply (lookup_map snd _ _ _ H2). }
  destruct (overlap_of_spec g1) as (dropped & Hg1 & Hle & Hmax).
  exists dropped, (overlap_of g1), rest.
  rewrite <- Hg1, <- Hrest. repeat split; auto.
Qed.

End ParagraphLog.

(** ** Decimal rendering of the chunk index *)

Section Decimal.

Lemma pretty_N_go_digits x s :
  digits s = true -> digits (pretty_N_go x s) = true.
Proof.
  revert s. induction (N.lt_wf_0 x) as [x _ IH]; intros s Hs.
  destruct (decide (0 < x)%N) as [Hpos|Hzero].
  - rewrite pretty_N_go_step by exact Hpos.
    apply IH; [apply N.div_lt; [exact Hpos|reflexivity]|].
    simpl. rewrite Hs, andb_true_r.
    unfold pretty_N_char. repeat case_match; reflexivity.
  - replace x with 0%N by lia. rewrite pretty_N_go_0. exact Hs.
Qed.

Lemma pretty_nat_digits (i : nat) : digits (pretty i) = true.
Proof.
  unfold pretty, pretty_nat, pretty, pretty_N.
  case_decide; [reflexivity|]. now apply pretty_N_go_digits.
Qed.

Lemma digits_sep_inj a b s1 s2 :
  digits a = true -> digits b = true ->
  a +:+ "_" +:+ s1 = b +:+ "_" +:+ s2 -> a = b.
Proof.
  revert b. induction a as [|c a IH]; intros [|d b] Ha Hb H; simpl in *.
  - reflexivity.
  - injection H as <- _. discriminate.
  - injection H as -> _. discriminate.
  - injection H as <- H.
    apply andb_true_iff in Ha as [_ Ha]. apply andb_true_iff in Hb as [_ Hb].
    f_equal. now apply IH.
Qed.

(** The identifier [f"chnk_{i}_{start}"] determines the index. *)
Lemma chunk_id_inj (i j : nat) s1 s2 :
  "chnk_" +:+ pretty i +:+ "_" +:+ s1 = "chnk_" +:+ pretty j +:+ "_" +:+ s2 ->
  i = j.
Proof.
  intros H. simpl in H. injection H as H.
  apply digits_sep_inj in H; try apply pretty_nat_digits.
  now apply (inj pretty) in H.
Qed.

End Decimal.

(** ** Header patterns on blank text *)

Section BlankText.

Lemma isspace_not_header c :
  PyStr.isspace c = true ->
  Re.digit c = false /\ Re.upper c = false
  /\ Ascii.eqb "S" c = false /\ Ascii.eqb "A" c = false.
Proof.
  destruct c as [[] [] [] [] [] [] [] []]; vm_compute; intros H;
    try discriminate H; repeat split.
Qed.

Lemma all_space_tail c s : PyStr.all_space (String c s) = true ->
  PyStr.isspace c = true /\ PyStr.all_space s = true.
Proof. simpl. intros H. now apply andb_true_iff in H. Qed.

Lemma run_seq r1 r2 pos s k :
  Re.run (Re.Seq r1 r2) pos s k
  = Re.run r1 pos s (fun pos' s' => Re.run r2 pos' s' k).
Proof. reflexivity. Qed.

Lemma run_alt r1 r2 pos s k :
  Re.run (Re.Alt r1 r2) pos s k
  = Re.or_else (Re.run r1 pos s k) (Re.run r2 pos s k).
Proof. reflexivity. Qed.

Lemma blank_rejected_seq r1 r2 :
  blank_rejected r1 -> blank_rejected (Re.Seq r1 r2).
Proof. intros H pos s k Hs. rewrite run_seq. now apply H. Qed.

Lemma blank_rejected_class (p : ascii -> bool) :
  (forall c, PyStr.isspace c = true -> p c = false) ->
  blank_rejected (Re.Cls p).
Proof.
  intros Hp pos s k Hs. destruct s as [|c s]; [reflexivity|].
  apply all_space_tail in Hs as [Hc _].
  cbn [Re.run]. now rewrite (Hp c Hc).
Qed.

Lemma blank_rejected_keyword :
  blank_rejected (Re.Alt (Re.Lit "SECTION") (Re.Lit "ARTICLE")).
Proof.
  intros pos s k Hs. destruct s as [|c s]; [reflexivity|].
  apply all_space_tail in Hs as [Hc _].
  destruct (isspace_not_header c Hc) as (_ & _ & HS & HA).
  rewrite run_alt. cbn [Re.run Re.lit]. rewrite HS, HA. reflexivity.
Qed.

(** Every header pattern has to read a character that is not blank
    right after the line start. *)
Lemma line_start_blank r pos s :
  blank_rejected r ->
  PyStr.all_space s = true ->
  Re.match_at (Re.Seq Re.line_start r) pos s = None.
Proof.
  intros Hr Hs. unfold Re.match_at, Re.line_start.
  rewrite run_seq, run_alt.
  assert (Re.run (Re.Chr PyStr.newline) pos s
            (fun pos' s' => Re.run r pos' s' (fun e _ => Some e)) = None) as Hnl.
  { destruct s as [|c s]; [reflexivity|].
    apply all_space_tail in Hs as [_ Hs]. cbn [Re.run].
    destruct (Ascii.eqb PyStr.newline c); [now apply Hr|reflexivity]. }
  rewrite Hnl. cbn [Re.run].
  destruct (pos =? 0)%nat; [|reflexivity].
  rewrite Hr by exact Hs. reflexivity.
Qed.

Lemma scan_blank r pos s :
  (forall pos' s', PyStr.all_space s' = true -> Re.match_at r pos' s' = None) ->
  PyStr.all_space s = true ->
  Re.scan r pos 0 s = [].
Proof.
  intros Hr. revert pos. induction s as [|c s IH]; intros pos Hs.
  - cbn [Re.scan]. now rewrite Hr.
  - cbn [Re.scan]. rewrite Hr by exact Hs.
    apply all_space_tail in Hs as [_ Hs]. now apply IH.
Qed.

Lemma section_pattern_blank txt :
  PyStr.all_space txt = true -> Re.finditer Re.section_pattern txt = [].
Proof.
  intros Hs. apply scan_blank; [|exact Hs].
  intros pos s Hb. apply line_start_blank; [|exact Hb].
  apply blank_rejected_seq, blank_rejected_keyword.
Qed.

Lemma numbered_pattern_blank txt :
  PyStr.all_space txt = true -> Re.finditer Re.numbered_pattern txt = [].
Proof.
  intros Hs. apply scan_blank; [|exact Hs].
  intros pos s Hb. apply line_start_blank; [|exact Hb].
  apply blank_rejected_seq. unfold Re.Plus.
  apply blank_rejected_seq, blank_rejected_class.
  intros c Hc. apply (isspace_not_header c Hc).
Qed.

Lemma header_caps_pattern_blank txt :
  PyStr.all_space txt = true -> Re.finditer Re.header_caps_pattern txt = [].
Proof.
  intros Hs. apply scan_blank; [|exact Hs].
  intros pos s Hb. apply line_start_blank; [|exact Hb].
  apply blank_rejected_seq, blank_rejected_class.
  intros c Hc. apply (isspace_not_header c Hc).
Qed.

End BlankText.

(** ** The orchestrator *)

Section Orchestrator.

Lemma as_dict_token_count c :
  as_dict c !! "token_count" = Some (VInt (token_count c)).
Proof. unfold as_dict. destruct (section_title c); by simplify_map_eq. Qed.

Lemma as_dict_start_char c :
  as_dict c !! "start_char" = Some (VInt (start_char c)).
Proof. unfold as_dict. destruct (section_title c); by simplify_map_eq. Qed.

Lemma enrich_lookup md i d k :
  k <> "chunk_index" -> k <> "chunk_id" ->
  enrich md i d !! k
  = match md_lookup md k with Some v => Some v | None => d !! k end.
Proof.
  intros H1 H2. unfold enrich.
  rewrite !lookup_insert_ne by congruence.
  destruct md as [m|]; simpl; [|reflexivity].
  case_bool_decide as Hm.
  - subst m. now rewrite lookup_empty.
  - rewrite lookup_union. destruct (m !! k), (d !! k); reflexivity.
Qed.

Lemma enrich_chunk_index md i d :
  enrich md i d !! "chunk_index" = Some (VInt (Z.of_nat i)).
Proof. unfold enrich. by simplify_map_eq. Qed.

Lemma enrich_chunk_id md i d :
  enrich md i d !! "chunk_id"
  = Some (VStr ("chnk_" +:+ pretty i +:+ "_"
                  +:+ format (default (VInt 0) (enrich md i d !! "start_char")))).
Proof.
  unfold enrich. rewrite lookup_insert_eq.
  rewrite (lookup_insert_ne _ "chunk_id" "start_char") by congruence.
  reflexivity.
Qed.

Lemma optimize_chunks_sublist cs out :
  optimize_chunks cs = inr out -> sublist out cs.
Proof.
  revert out. induction cs as [|c cs IH]; intros out H; simpl in H.
  - injection H as <-. constructor.
  - destruct (c !! "token_count") as [[n|s]|]; try discriminate.
    destruct (optimize_chunks cs) as [e|opt]; [discriminate|].
    injection H as <-. specialize (IH opt eq_refl).
    destruct (n <? 10); [now apply sublist_cons|now apply sublist_skip].
Qed.

Lemma optimize_chunks_kept cs out :
  optimize_chunks cs = inr out ->
  Forall (fun d : gmap string value =>
            exists n, d !! "token_count" = Some (VInt n) /\ 10 <= n) out.
Proof.
  revert out. induction cs as [|c cs IH]; intros out H; simpl in H.
  - injection H as <-. constructor.
  - destruct (c !! "token_count") as [[n|s]|] eqn:E; try discriminate.
    destruct (optimize_chunks cs) as [e|opt]; [discriminate|].
    injection H as <-. specialize (IH opt eq_refl).
    destruct (Z.ltb_spec n 10); [exact IH|].
    constructor; [|exact IH]. exists n. split; [exact E|lia].
Qed.

Lemma optimize_chunks_total cs :
  Forall (fun d : gmap string value =>
            exists n, d !! "token_count" = Some (VInt n)) cs ->
  exists out, optimize_chunks cs = inr out.
Proof.
  induction 1 as [|c cs [n Hn] _ [opt IH]]; simpl; [now exists []|].
  rewrite Hn, IH. eauto.
Qed.

Lemma optimize_chunks_noise cs :
  Forall (fun d : gmap string value =>
            exists n, d !! "token_count" = Some (VInt n) /\ n < 10) cs ->
  optimize_chunks cs = inr [].
Proof.
  induction 1 as [|c cs (n & Hn & Hlt) _ IH]; simpl; [reflexivity|].
  rewrite Hn, IH. destruct (Z.ltb_spec n 10); [reflexivity|lia].
Qed.

Lemma final_chunks_elem txt md d :
  d ∈ final_chunks txt md ->
  exists i c, chunk_by_sections self txt !! i = Some c
              /\ d = enrich md i (as_dict c).
Proof.
  intros H. apply elem_of_lookup_imap in H as (i & c & -> & Hc). eauto.
Qed.

Lemma smart_chunk_unfold txt md :
  smart_chunk self txt md = optimize_chunks (final_chunks txt md).
Proof. reflexivity. Qed.

Lemma final_chunks_token_count txt md d :
  d ∈ final_chunks txt md ->
  exists c, c ∈ chunk_by_sections self txt
            /\ d !! "token_count"
               = match md_lookup md "token_count" with
                 | Some v => Some v
                 | None => Some (VInt (token_count c))
                 end.
Proof.
  intros H. apply final_chunks_elem in H as (i & c & Hc & ->).
  exists c. split; [eapply list_elem_of_lookup_2, Hc|].
  rewrite enrich_lookup by congruence. now rewrite as_dict_token_count.
Qed.

(** C8, amended: in every chunk [smart_chunk] returns, each key of the
    caller metadata other than [chunk_index] and [chunk_id] maps to the
    value the caller supplied, whatever the chunk held under it. *)
Theorem smart_chunk_metadata_merged (txt : string)
    (metadata : option (gmap string value)) out d k v :
  smart_chunk self txt metadata = inr out ->
  d ∈ out ->
  md_lookup metadata k = Some v ->
  k <> "chunk_index" ->
  k <> "chunk_id" ->
  d !! k = Some v.
Proof.
  intros H Hd Hk H1 H2. rewrite smart_chunk_unfold in H.
  apply optimize_chunks_sublist in H.
  pose proof (elem_of_sublist _ _ _ Hd H) as Hin.
  apply final_chunks_elem in Hin as (i & c & _ & ->).
  rewrite enrich_lookup by assumption. now rewrite Hk.
Qed.

Lemma final_chunks_ids_NoDup txt md :
  NoDup (chunk_id_of <$> final_chunks txt md).
Proof.
  unfold final_chunks. rewrite fmap_imap. apply NoDup_alt.
  intros i j x Hi Hj.
  apply list_lookup_imap_Some in Hi as (ci & _ & ->).
  apply list_lookup_imap_Some in Hj as (cj & _ & Heq).
  unfold chunk_id_of, compose in Heq. rewrite !enrich_chunk_id in Heq.
  match type of Heq with
  | Some (VStr ?a) = Some (VStr ?b) =>
      assert (a = b) as Hid by (clear -Heq; congruence)
  end.
  exact (chunk_id_inj _ _ _ _ Hid).
Qed.

Lemma enrich_start_char md i c :
  enrich md i (as_dict c) !! "start_char"
  = match md_lookup md "start_char" with
    | Some v => Some v
    | None => Some (VInt (start_char c))
    end.
Proof. rewrite enrich_lookup by congruence. now rewrite as_dict_start_char. Qed.

(** C9: the [chunk_id] strings of the chunks one call of [smart_chunk]
    returns are pairwise distinct; each is [chnk_], the decimal index,
    [_] and the start, where the index is the position of the chunk
    in the list of [chunk_by_sections], before filtering, and also
    its [chunk_index], and the start is the decimal [start_char] the
    splitter gave the chunk, or what the caller metadata holds under
    [start_char] when it holds something: a number in decimal, a
    string as it is. *)
Theorem smart_chunk_ids_distinct (txt : string)
    (metadata : option (gmap string value)) out :
  smart_chunk self txt metadata = inr out ->
  NoDup (map chunk_id_of out)
  /\ Forall (fun d : gmap string value =>
               exists (i : nat) c,
                 chunk_by_sections self txt !! i = Some c
                 /\ d !! "chunk_index" = Some (VInt (Z.of_nat i))
                 /\ d !! "chunk_id"
                    = Some (VStr ("chnk_" +:+ pretty i +:+ "_"
                                    +:+ match md_lookup metadata "start_char"
                                        with
                                        | None => pretty (start_char c)
                                        | Some (VInt z) => pretty z
                                        | Some (VStr s) => s
                                        end))) out.
Proof.
  intros H. rewrite smart_chunk_unfold in H.
  apply optimize_chunks_sublist in H. split.
  - change (map chunk_id_of out) with (chunk_id_of <$> out).
    eapply sublist_NoDup; [apply final_chunks_ids_NoDup|].
    apply (fmap_sublist chunk_id_of _ _ H).
  - apply Forall_forall. intros d Hd.
    pose proof (elem_of_sublist _ _ _ Hd H) as Hin.
    apply final_chunks_elem in Hin as (i & c & Hc & ->).
    exists i, c. split; [exact Hc|]. split.
    + apply enrich_chunk_index.
    + rewrite enrich_chunk_id, enrich_start_char.
      destruct (md_lookup metadata "start_char") as [[z|s]|]; reflexivity.
Qed.

Lemma chunk_by_paragraphs_empty :
  0 <= chunk_size self ->
  Forall (fun c => token_count c < 10) (chunk_by_paragraphs self "").
Proof.
  intros Hsize. unfold chunk_by_paragraphs.
  change (Re.split Re.blank_line "") with [""].
  change (build_para_infos "" [""] 0)
    with [{| para_text := ""; para_start := 0 |}].
  cbn [fold_left]. unfold para_step.
  cbn [current_chunk current_tokens chunks para_text nonempty count_tokens].
  rewrite andb_false_r.
  destruct (Z.gtb_spec 0 (chunk_size self)); [lia|].
  cbn [current_chunk chunks app nonempty].
  unfold flush. repeat constructor.
Qed.

(** C3, amended: for a text that is empty or all whitespace and
    caller metadata without a [token_count] key, [smart_chunk] returns
    the empty list, and raises nothing, provided every chunk the
    paragraph splitter makes of the text counts fewer than 10 tokens;
    the empty text meets that proviso whenever [chunk_size] is not
    negative. *)
Theorem smart_chunk_blank_input (txt : string)
    (metadata : option (gmap string value)) :
  PyStr.all_space txt = true ->
  md_lookup metadata "token_count" = None ->
  (txt = "" /\ 0 <= chunk_size self)
  \/ Forall (fun c => token_count c < 10) (chunk_by_paragraphs self txt) ->
  smart_chunk self txt metadata = inr [].
Proof.
  intros Hblank Hmd Hsmall.
  assert (Forall (fun c => token_count c < 10) (chunk_by_paragraphs self txt))
    as Hall.
  { destruct Hsmall as [[-> Hsize]|H]; [|exact H].
    now apply chunk_by_paragraphs_empty. }
  rewrite smart_chunk_unfold. apply optimize_chunks_noise.
  apply Forall_forall. intros d Hd.
  apply final_chunks_token_count in Hd as (c & Hc & ->).
  rewrite Hmd. exists (token_count c). split; [reflexivity|].
  rewrite (no_headers_delegates txt) in Hc
    by auto using section_pattern_blank, numbered_pattern_blank,
                  header_caps_pattern_blank.
  exact (proj1 (Forall_forall _ _) Hall c Hc).
Qed.

End Orchestrator.

(** ** What every chunk of the splitters keeps *)

Section SplitterInduction.

(** [W] is shown for the raw token windows, [P] for the chunks of the
    paragraph splitter, [Q] for the chunks of the section splitter. *)
Variables W P : chunk -> Prop.
Hypothesis W_window :
  forall t, W (_create_chunk_dict self t (-1) "token" None).
Hypothesis P_group :
  forall t (start : nat),
    P (_create_chunk_dict self t (Z.of_nat start) "paragraph" None).
Hypothesis P_sub : forall para sc, W sc -> P (subsplit para sc).

Lemma chunk_by_tokens_all txt : Forall W (chunk_by_tokens self txt).
Proof.
  unfold chunk_by_tokens. apply tokens_loop_Forall; [exact W_window|constructor].
Qed.

Lemma flush_all cs group :
  Forall P cs -> Forall P (flush self cs group).
Proof.
  intros H. destruct group as [|p group]; [exact H|].
  rewrite flush_cons. apply Forall_app. split; [exact H|].
  constructor; [apply P_group|constructor].
Qed.

Lemma subsplit_all para txt :
  Forall P (map (subsplit para) (chunk_by_tokens self txt)).
Proof.
  apply Forall_map. eapply Forall_impl; [apply chunk_by_tokens_all|].
  intros c Hc. now apply P_sub.
Qed.

Lemma para_step_all st para :
  Forall P (chunks st) -> Forall P (chunks (para_step self st para)).
Proof.
  intros H. unfold para_step.
  set (p_tokens := count_tokens self (para_text para)).
  destruct ((current_tokens st + p_tokens >? chunk_size self)
            && nonempty (current_chunk st)).
  - destruct (overlap_loop self (rev (current_chunk st)) [] 0) as [nc ot].
    destruct (p_tokens >? chunk_size self); simpl.
    + destruct (nonempty nc); simpl.
      * apply Forall_app. split; [|apply subsplit_all].
        now apply flush_all, flush_all.
      * apply Forall_app. split; [|apply subsplit_all].
        now apply flush_all.
    + now apply flush_all.
  - destruct (p_tokens >? chunk_size self); simpl; [|exact H].
    destruct (nonempty (current_chunk st)); simpl.
    + apply Forall_app. split; [|apply subsplit_all].
      now apply flush_all.
    + apply Forall_app. split; [exact H|apply subsplit_all].
Qed.

Lemma para_fold_all paras st :
  Forall P (chunks st) ->
  Forall P (chunks (fold_left (para_step self) paras st)).
Proof.
  revert st. induction paras as [|para paras IH]; intros st H; simpl;
    [exact H|].
  apply IH, para_step_all, H.
Qed.

Lemma chunk_by_paragraphs_all txt : Forall P (chunk_by_paragraphs self txt).
Proof.
  unfold chunk_by_paragraphs.
  match goal with
  | |- context [fold_left ?f ?l ?i] =>
      pose proof (para_fold_all l i (List.Forall_nil _)) as H;
      set (st := fold_left f l i) in *
  end.
  destruct (nonempty (current_chunk st)); [apply flush_all|]; exact H.
Qed.

Variable Q : chunk -> Prop.
Variable doc : string.
Hypothesis Q_section :
  forall m (section_end : nat),
    m ∈ unique_matches doc ->
    count_tokens self (PyStr.slice doc (m_start m) section_end)
    <= chunk_size self ->
    Q (_create_chunk_dict self (PyStr.slice doc (m_start m) section_end)
         (Z.of_nat (m_start m)) "section" (Some (m_title m))).
Hypothesis Q_in_section :
  forall m c, m ∈ unique_matches doc -> P c -> Q (in_section m (m_start m) c).
Hypothesis Q_plain : forall c, P c -> Q c.

Lemma sections_loop_all ums :
  (forall m, m ∈ ums -> m ∈ unique_matches doc) ->
  Forall Q (sections_loop self doc ums).
Proof.
  induction ums as [|m rest IH]; intros Hin; simpl; [constructor|].
  apply Forall_app. split.
  - assert (m ∈ unique_matches doc) as Hm by (apply Hin; left).
    destruct (Z.gtb_spec (count_tokens self
                (PyStr.slice doc (m_start m)
                   match rest with
                   | [] => String.length doc
                   | m' :: _ => m_start m'
                   end)) (chunk_size self)) as [Hbig|Hfit].
    + apply Forall_map. eapply Forall_impl; [apply chunk_by_paragraphs_all|].
      intros c Hc. now apply Q_in_section.
    + constructor; [|constructor]. now apply Q_section.
  - apply IH. intros m' Hm'. apply Hin. now right.
Qed.

Lemma chunk_by_sections_all : Forall Q (chunk_by_sections self doc).
Proof.
  unfold chunk_by_sections.
  pose proof (sections_loop_all (unique_matches doc) (fun m H => H)) as Hs.
  revert Hs. generalize (unique_matches doc). intros [|first rest] Hs.
  - eapply Forall_impl; [apply chunk_by_paragraphs_all|exact Q_plain].
  - destruct (0 <? m_start first)%nat; [|exact Hs].
    destruct (PyStr.truthy _); [|exact Hs].
    apply Forall_app. split; [|exact Hs].
    eapply Forall_impl; [apply chunk_by_paragraphs_all|exact Q_plain].
Qed.

End SplitterInduction.

Section SplitterFacts.

Lemma substring_length_le a m s :
  (String.length (substring a m s) <= m)%nat.
Proof.
  revert a m. induction s as [|c s IH]; intros [|a] [|m]; simpl; try lia.
  - specialize (IH 0%nat m). lia.
  - apply IH.
  - apply IH.
Qed.

Lemma substring_again a m s :
  substring a (String.length (substring a m s)) s = substring a m s.
Proof.
  revert a m. induction s as [|c s IH]; intros [|a] [|m]; simpl;
    try reflexivity.
  - f_equal. apply (IH 0%nat m).
  - apply (IH a 0%nat).
  - apply (IH a (S m)).
Qed.

Lemma slice_again s (a e : nat) :
  PyStr.slice s a (a + String.length (PyStr.slice s a e)) = PyStr.slice s a e.
Proof.
  unfold PyStr.slice.
  replace (a + String.length (substring a (e - a) s) - a)%nat
    with (String.length (substring a (e - a) s)) by lia.
  apply substring_again.
Qed.

Lemma chunk_by_sections_counted (doc : string) :
  Forall (fun c => token_count c = count_tokens self (text c))
         (chunk_by_sections self doc).
Proof.
  set (fresh := fun c => token_count c = count_tokens self (text c)).
  apply (chunk_by_sections_all fresh fresh); try reflexivity; auto.
Qed.

(** X1: the [token_count] of a chunk is the token count of its own
    text, for every chunk of the three splitters: no fix-up that
    follows the creation of a chunk touches either field. *)
Theorem token_count_never_stale (doc : string) :
  Forall (fun c => token_count c = count_tokens self (text c))
         (chunk_by_tokens self doc)
  /\ Forall (fun c => token_count c = count_tokens self (text c))
            (chunk_by_paragraphs self doc)
  /\ Forall (fun c => token_count c = count_tokens self (text c))
            (chunk_by_sections self doc).
Proof.
  set (fresh := fun c => token_count c = count_tokens self (text c)).
  assert (forall t, fresh (_create_chunk_dict self t (-1) "token" None))
    as Hw by reflexivity.
  assert (forall t (start : nat),
            fresh (_create_chunk_dict self t (Z.of_nat start) "paragraph" None))
    as Hg by reflexivity.
  assert (forall para sc, fresh sc -> fresh (subsplit para sc))
    as Hs by (intros para sc H; exact H).
  split; [apply (chunk_by_tokens_all fresh Hw)|].
  split; [apply (chunk_by_paragraphs_all fresh fresh Hw Hg Hs)|].
  apply (chunk_by_sections_all fresh fresh Hw Hg Hs fresh doc).
  - reflexivity.
  - intros m c _ H. exact H.
  - auto.
Qed.

(** X2: a chunk tagged [section] always fits the budget, starts where
    a kept header match starts and is titled with the stripped text of
    that match. *)
Theorem section_chunk_within_budget (doc : string) :
  Forall (fun c =>
            strategy c = "section" ->
            token_count c <= chunk_size self
            /\ exists m, m ∈ unique_matches doc
                         /\ section_title c = Some (m_title m)
                         /\ start_char c = Z.of_nat (m_start m))
         (chunk_by_sections self doc).
Proof.
  apply (chunk_by_sections_all
           (fun c => strategy c <> "section")
           (fun c => strategy c <> "section")).
  - intros t. discriminate.
  - intros t start. discriminate.
  - intros para sc _. discriminate.
  - intros m e Hm Hfit _. split; [exact Hfit|]. exists m. auto.
  - intros m c _ Hc Hs. now destruct Hc.
  - intros c Hc Hs. now destruct Hc.
Qed.

(** X3: the text of a chunk tagged [section] is the slice of the
    document between its [start_char] and its [end_char]. *)
Theorem section_chunk_is_slice (doc : string) :
  Forall (fun c =>
            strategy c = "section" ->
            exists s e : nat,
              start_char c = Z.of_nat s
              /\ end_char c = Z.of_nat e
              /\ text c = PyStr.slice doc s e)
         (chunk_by_sections self doc).
Proof.
  apply (chunk_by_sections_all
           (fun c => strategy c <> "section")
           (fun c => strategy c <> "section")).
  - intros t. discriminate.
  - intros t start. discriminate.
  - intros para sc _. discriminate.
  - intros m e _ _ _.
    exists (m_start m),
           (m_start m + String.length (PyStr.slice doc (m_start m) e))%nat.
    simpl. unfold PyStr.len. rewrite slice_again.
    repeat split. lia.
  - intros m c _ Hc Hs. now destruct Hc.
  - intros c Hc Hs. now destruct Hc.
Qed.

(** X4: every chunk of [chunk_by_sections] that is not a window of an
    oversized paragraph has a non-negative [start_char] and an
    [end_char] that lies exactly the length of its text further, also
    after the shift by the section start. *)
Theorem structural_offsets_consistent (doc : string) :
  Forall (fun c =>
            strategy c <> "paragraph_subsplit" ->
            0 <= start_char c
            /\ end_char c - start_char c = PyStr.len (text c))
         (chunk_by_sections self doc).
Proof.
  set (ok := fun c => strategy c <> "paragraph_subsplit" ->
                      0 <= start_char c
                      /\ end_char c - start_char c = PyStr.len (text c)).
  apply (chunk_by_sections_all (fun _ => True) ok); subst ok; simpl.
  - auto.
  - intros t start _. lia.
  - intros para sc _ H. now destruct H.
  - intros m e _ _ _. lia.
  - intros m c _ Hc Hs. specialize (Hc Hs). lia.
  - auto.
Qed.

End SplitterFacts.

(** ** The paragraph budget as the loop counts it *)

Section GroupBudget.

Hypothesis overlap_nonneg : 0 <= chunk_overlap self.

Ltac red_lstate := cbn [log l_chunk l_tokens].

Lemma flush_log_budget lg group :
  Forall (fun e => forall g, snd e = Some g ->
                   group_tokens g <= chunk_size self + chunk_overlap self) lg ->
  (group <> [] ->
   group_tokens group <= chunk_size self + chunk_overlap self) ->
  Forall (fun e => forall g, snd e = Some g ->
                   group_tokens g <= chunk_size self + chunk_overlap self)
         (flush_log lg group).
Proof.
  intros H Hg. destruct group as [|p group]; [exact H|].
  unfold flush_log. apply Forall_app. split; [exact H|].
  constructor; [|constructor].
  intros g Heq. simpl in Heq. injection Heq as <-. apply Hg. discriminate.
Qed.

Lemma subsplit_log_budget lg para cs :
  Forall (fun e => forall g, snd e = Some g ->
                   group_tokens g <= chunk_size self + chunk_overlap self) lg ->
  Forall (fun e => forall g, snd e = Some g ->
                   group_tokens g <= chunk_size self + chunk_overlap self)
         (lg ++ map (fun sc => (subsplit para sc, None)) cs).
Proof.
  intros H. apply Forall_app. split; [exact H|].
  apply Forall_map, Forall_forall. intros c _ g Hg. discriminate Hg.
Qed.

Lemma overlap_loop_total group nc ot :
  overlap_loop self (rev group) [] 0 = (nc, ot) ->
  ot = group_tokens nc /\ ot <= chunk_overlap self.
Proof.
  intros E.
  apply overlap_loop_spec in E as (taken & rest & _ & -> & -> & Hle & _).
  rewrite app_nil_r, group_tokens_rev. split; [lia|]. apply Hle. lia.
Qed.

Lemma para_step_log_budget st para :
  budget_inv st -> budget_inv (para_step_log st para).
Proof.
  intros (Htot & Hcur & Hlog). unfold para_step_log, budget_inv.
  set (p_tokens := count_tokens self (para_text para)).
  pose proof (count_tokens_nonneg (para_text para)) as Hp. fold p_tokens in Hp.
  assert (l_chunk st <> [] ->
          group_tokens (l_chunk st) <= chunk_size self + chunk_overlap self)
    as Hflush by (intros Hne; destruct (Hcur Hne); lia).
  destruct ((l_tokens st + p_tokens >? chunk_size self)
            && nonempty (l_chunk st)) eqn:Hover.
  - apply andb_true_iff in Hover as [_ Hne]. apply nonempty_true in Hne.
    destruct (Hcur Hne) as [Hsize _].
    destruct (overlap_loop self (rev (l_chunk st)) [] 0) as [nc ot] eqn:E.
    apply overlap_loop_total in E as [Hot Hle].
    destruct (Z.gtb_spec p_tokens (chunk_size self)) as [Hbig|Hfit];
      red_lstate.
    + destruct (nonempty nc) eqn:Hnc; red_lstate.
      * split; [reflexivity|]. split; [congruence|].
        apply subsplit_log_budget, flush_log_budget.
        -- now apply flush_log_budget.
        -- intros _. lia.
      * split; [exact Hot|]. split.
        -- destruct nc; [congruence|discriminate].
        -- apply subsplit_log_budget. now apply flush_log_budget.
    + split; [|split].
      * rewrite group_tokens_app. simpl. fold p_tokens. lia.
      * intros _. lia.
      * now apply flush_log_budget.
  - destruct (Z.gtb_spec p_tokens (chunk_size self)) as [Hbig|Hfit];
      red_lstate.
    + destruct (nonempty (l_chunk st)) eqn:Hne; red_lstate.
      * split; [reflexivity|]. split; [congruence|].
        apply subsplit_log_budget. now apply flush_log_budget.
      * split; [exact Htot|]. split; [exact Hcur|].
        now apply subsplit_log_budget.
    + split; [|split].
      * rewrite group_tokens_app. simpl. fold p_tokens. lia.
      * intros _. split; [lia|].
        apply andb_false_iff in Hover as [Hle|Hempty].
        -- lia.
        -- destruct (l_chunk st); [simpl in Htot; lia|discriminate].
      * exact Hlog.
Qed.

Lemma para_fold_log_budget paras st :
  budget_inv st -> budget_inv (fold_left para_step_log paras st).
Proof.
  revert st. induction paras as [|para paras IH]; intros st H; simpl;
    [exact H|].
  apply IH, para_step_log_budget, H.
Qed.

Lemma chunk_by_paragraphs_log_budget txt :
  Forall (fun e => forall g, snd e = Some g ->
                   group_tokens g <= chunk_size self + chunk_overlap self)
         (chunk_by_paragraphs_log txt).
Proof.
  unfold chunk_by_paragraphs_log.
  match goal with
  | |- context [fold_left ?f ?l ?i] =>
      assert (budget_inv (fold_left f l i)) as (Htot & Hcur & Hlog);
      [|set (st := fold_left f l i) in *]
  end.
  { apply para_fold_log_budget.
    split; [reflexivity|]. split; [intros H; now destruct H|constructor]. }
  destruct (nonempty (l_chunk st)); [|exact Hlog].
  apply flush_log_budget; [exact Hlog|].
  intros Hne. destruct (Hcur Hne) as [_ H]. lia.
Qed.

(** X5: with [chunk_overlap >= 0], the paragraphs packed into one
    chunk tagged [paragraph] count, paragraph by paragraph, at most
    [chunk_size + chunk_overlap] tokens: the budget as the loop keeps
    it, the overlap carried in coming on top. *)
Theorem paragraph_group_budget (txt : string) :
  map fst (chunk_by_paragraphs_log txt) = chunk_by_paragraphs self txt
  /\ forall c g,
       (c, Some g) ∈ chunk_by_paragraphs_log txt ->
       strategy c = "paragraph"
       /\ text c = group_text g
       /\ group_tokens g <= chunk_size self + chunk_overlap self.
Proof.
  split; [apply chunk_by_paragraphs_log_erase|].
  intros c g Hin.
  pose proof (proj1 (Forall_forall _ _) (chunk_by_paragraphs_log_ok txt)
                _ Hin) as (Hs & Ht & _).
  pose proof (proj1 (Forall_forall _ _) (chunk_by_paragraphs_log_budget txt)
                _ Hin g eq_refl) as Hb.
  auto.
Qed.

End GroupBudget.

(** ** Coverage of the token windows *)

Section WindowCoverage.

Lemma tokens_loop_visited tokens indices acc :
  tokens_loop self tokens indices acc
  = acc ++ map (fun i => _create_chunk_dict self
                           (decode (encoding self)
                              (PySeq.slice tokens i (i + chunk_size self)))
                           (-1) "token" None)
             (visited (chunk_size self) (Z.of_nat (length tokens)) indices).
Proof.
  revert acc. induction indices as [|i rest IH]; intros acc; simpl.
  - now rewrite app_nil_r.
  - destruct (i + chunk_size self >=? Z.of_nat (length tokens)); simpl.
    + reflexivity.
    + rewrite IH, <- app_assoc. reflexivity.
Qed.

Lemma chunk_by_tokens_windows txt :
  chunk_by_tokens self txt = map (window_chunk txt) (window_starts txt).
Proof.
  unfold chunk_by_tokens, window_starts, window_chunk.
  now rewrite tokens_loop_visited.
Qed.

Lemma visited_range_from size total st n i :
  forall w, w ∈ visited size total (PySeq.range_from n i st) ->
            exists k : nat, w = i + Z.of_nat k * st /\ (k < n)%nat.
Proof.
  revert i. induction n as [|n IH]; intros i w Hw; simpl in Hw.
  - now apply elem_of_nil in Hw.
  - destruct (i + size >=? total).
    + apply list_elem_of_singleton in Hw as ->. exists 0%nat. split; lia.
    + apply elem_of_cons in Hw as [->|Hw].
      * exists 0%nat. split; lia.
      * apply IH in Hw as (k & -> & Hk). exists (S k). split; lia.
Qed.

(** Every token position from [i] on lies in a visited window, as
    long as the range reaches the end and the stride does not exceed
    the window. *)
Lemma visited_covers size total st n i :
  1 <= st -> st <= size ->
  total <= i + Z.of_nat n * st ->
  forall j, i <= j < total ->
            exists w, w ∈ visited size total (PySeq.range_from n i st)
                      /\ w <= j < w + size.
Proof.
  intros Hst Hsize. revert i.
  induction n as [|n IH]; intros i Hreach j Hj; [lia|].
  simpl. destruct (Z.geb_spec (i + size) total) as [Hend|Hmore].
  - exists i. split; [apply list_elem_of_here|lia].
  - destruct (Z.lt_ge_cases j (i + st)) as [Hnear|Hfar].
    + exists i. split; [apply list_elem_of_here|lia].
    + destruct (IH (i + st)) with (j := j) as (w & Hw & Hin); [lia|lia|].
      exists w. split; [now apply list_elem_of_further|exact Hin].
Qed.

Lemma slice_length_le {A} (l : list A) (lo hi : Z) :
  0 <= lo -> 0 <= hi ->
  (Z.of_nat (length (PySeq.slice l lo hi)) <= Z.max (hi - lo) 0).
Proof.
  intros Hlo Hhi. unfold PySeq.slice. rewrite length_firstn, length_skipn.
  unfold PySeq.clamp.
  destruct (Z.ltb_spec lo 0); [lia|].
  destruct (Z.ltb_spec hi 0); lia.
Qed.

(** X6: with [chunk_size >= 1] and [chunk_overlap >= 0] the chunks of
    [chunk_by_tokens] are the windows at the visited starts, every
    token position lies in at least one of those windows, and no
    window holds more than [chunk_size] tokens: nothing of the token
    sequence is left out. *)
Theorem token_windows_cover (txt : string) :
  1 <= chunk_size self ->
  0 <= chunk_overlap self ->
  let tokens := encode (encoding self) txt in
  chunk_by_tokens self txt = map (window_chunk txt) (window_starts txt)
  /\ (forall j, 0 <= j < Z.of_nat (length tokens) ->
        exists i, i ∈ window_starts txt /\ i <= j < i + chunk_size self)
  /\ Forall (fun i =>
               0 <= i
               /\ (length (PySeq.slice tokens i (i + chunk_size self))
                   <= Z.to_nat (chunk_size self))%nat)
            (window_starts txt).
Proof.
  intros Hsize Hov tokens.
  pose proof step_pos as Hstep.
  assert (step self <= chunk_size self) as Hle.
  { rewrite step_floor. lia. }
  split; [apply chunk_by_tokens_windows|]. split.
  - intros j Hj. unfold window_starts. fold tokens.
    set (total := Z.of_nat (length tokens)) in *.
    unfold PySeq.range.
    destruct (Z.ltb_spec 0 (step self)); [|lia].
    destruct (Z.ltb_spec 0 total); [|lia]. simpl.
    apply visited_covers; try lia.
    assert (0 <= (total - 0 - 1) / step self) by (apply Z.div_pos; lia).
    rewrite Z2Nat.id by lia.
    pose proof (Z.mul_succ_div_gt (total - 0 - 1) (step self)). lia.
  - apply Forall_forall. intros i Hi. unfold window_starts in Hi.
    fold tokens in Hi. unfold PySeq.range in Hi.
    destruct ((0 <? step self) && (0 <? Z.of_nat (length tokens)));
      [|now apply elem_of_nil in Hi].
    apply visited_range_from in Hi as (k & -> & _).
    split; [lia|].
    pose proof (slice_length_le tokens (0 + Z.of_nat k * step self)
                  (0 + Z.of_nat k * step self + chunk_size self)) as Hlen.
    lia.
Qed.

(** X7: a text without tokens gives no chunk, and a text whose tokens
    fit one window gives exactly one chunk, whose text is the decoded
    token sequence of the whole text. *)
Theorem token_windows_small (txt : string) :
  let tokens := encode (encoding self) txt in
  (tokens = [] -> chunk_by_tokens self txt = [])
  /\ (tokens <> [] ->
      Z.of_nat (length tokens) <= chunk_size self ->
      chunk_by_tokens self txt
      = [_create_chunk_dict self (decode (encoding self) tokens)
           (-1) "token" None]).
Proof.
  intros tokens. split.
  - intros Hnil. unfold chunk_by_tokens. fold tokens. rewrite Hnil.
    simpl. unfold PySeq.range. rewrite andb_false_r. reflexivity.
  - intros Hne Hfit. unfold chunk_by_tokens. fold tokens.
    pose proof step_pos as Hstep.
    assert (0 < Z.of_nat (length tokens)) as Hpos
      by (destruct tokens; [congruence|simpl; lia]).
    unfold PySeq.range.
    destruct (Z.ltb_spec 0 (step self)); [|lia].
    destruct (Z.ltb_spec 0 (Z.of_nat (length tokens))); [|lia]. simpl.
    assert (0 <= (Z.of_nat (length tokens) - 0 - 1) / step self)
      by (apply Z.div_pos; lia).
    destruct (Z.to_nat _) as [|n] eqn:E; [lia|].
    simpl. destruct (Z.geb_spec (0 + chunk_size self)
                       (Z.of_nat (length tokens))); [|lia].
    do 3 f_equal. unfold PySeq.slice, PySeq.clamp.
    destruct (Z.ltb_spec 0 0); [lia|].
    destruct (Z.ltb_spec (0 + chunk_size self) 0); [lia|].
    simpl. rewrite Nat.sub_0_r.
    apply firstn_all2. lia.
Qed.

End WindowCoverage.

(** ** The filter and the errors of the orchestrator *)

Section OrchestratorFacts.

Lemma optimize_chunks_filter cs out :
  optimize_chunks cs = inr out -> out = List.filter kept cs.
Proof.
  revert out. induction cs as [|c cs IH]; intros out H; simpl in H.
  - now injection H as <-.
  - simpl. unfold kept at 1.
    destruct (c !! "token_count") as [[n|s]|]; try discriminate.
    destruct (optimize_chunks cs) as [e|opt]; [discriminate|].
    injection H as <-. rewrite <- (IH opt eq_refl).
    now destruct (n <? 10).
Qed.

Lemma optimize_chunks_fixed cs :
  Forall (fun d : gmap string value =>
            exists n, d !! "token_count" = Some (VInt n) /\ 10 <= n) cs ->
  optimize_chunks cs = inr cs.
Proof.
  induction 1 as [|c cs (n & Hn & Hge) _ IH]; simpl; [reflexivity|].
  rewrite Hn, IH. destruct (Z.ltb_spec n 10); [lia|reflexivity].
Qed.

(** X8: when [optimize_chunks] returns, it returns exactly the chunks
    whose [token_count] is at least 10, in their order, and running
    it again on its result changes nothing. *)
Theorem optimize_chunks_is_filter (cs out : list (gmap string value)) :
  optimize_chunks cs = inr out ->
  out = List.filter kept cs /\ optimize_chunks out = inr out.
Proof.
  intros H. split; [now apply optimize_chunks_filter|].
  apply optimize_chunks_fixed. exact (optimize_chunks_kept _ _ H).
Qed.

Lemma final_chunks_nil txt md :
  final_chunks txt md = [] <-> chunk_by_sections self txt = [].
Proof.
  unfold final_chunks. destruct (chunk_by_sections self txt); simpl;
    split; congruence.
Qed.

Lemma optimize_chunks_error cs e :
  optimize_chunks cs = inl e ->
  exists d, d ∈ cs
            /\ ((e = TypeError /\ exists s, d !! "token_count" = Some (VStr s))
                \/ (e = KeyError /\ d !! "token_count" = None)).
Proof.
  induction cs as [|c cs IH]; simpl; [discriminate|].
  destruct (c !! "token_count") as [[n|s]|] eqn:E.
  - destruct (optimize_chunks cs) as [e'|opt]; [|discriminate].
    intros H. injection H as <-.
    destruct (IH eq_refl) as (d & Hd & Hcase).
    exists d. split; [now right|exact Hcase].
  - intros H. injection H as <-. exists c. split; [now left|]. left. eauto.
  - intros H. injection H as <-. exists c. split; [now left|]. now right.
Qed.

(** C7, amended: every chunk in the list [smart_chunk] returns has
    an integer [token_count] of at least 10.  When the caller metadata
    has no [token_count], that number is the token count of the text
    of the splitter's chunk it stems from, which is its own text
    unless the metadata replaces [text]: no chunk of fewer than 10
    tokens is returned. *)
Theorem smart_chunk_min_tokens (txt : string)
    (metadata : option (gmap string value)) out :
  smart_chunk self txt metadata = inr out ->
  Forall (fun d : gmap string value =>
            exists n,
              d !! "token_count" = Some (VInt n)
              /\ 10 <= n
              /\ (md_lookup metadata "token_count" = None ->
                  exists c,
                    c ∈ chunk_by_sections self txt
                    /\ n = count_tokens self (text c)
                    /\ (md_lookup metadata "text" = None ->
                        d !! "text" = Some (VStr (text c))))) out.
Proof.
  intros H. rewrite smart_chunk_unfold in H.
  pose proof (optimize_chunks_kept _ _ H) as Hkept.
  apply optimize_chunks_sublist in H.
  apply Forall_forall. intros d Hd.
  destruct (proj1 (Forall_forall _ _) Hkept d Hd) as (n & Hn & Hge).
  exists n. split; [exact Hn|]. split; [exact Hge|].
  intros Hmd.
  pose proof (elem_of_sublist _ _ _ Hd H) as Hin.
  apply final_chunks_elem in Hin as (i & c & Hc & ->).
  assert (c ∈ chunk_by_sections self txt) as Hin
    by (eapply list_elem_of_lookup_2, Hc).
  exists c. split; [exact Hin|]. split.
  - rewrite enrich_lookup, Hmd, as_dict_token_count in Hn by congruence.
    injection Hn as <-.
    exact (proj1 (Forall_forall _ _) (chunk_by_sections_counted txt) c Hin).
  - intros Htext. rewrite enrich_lookup, Htext by congruence.
    unfold as_dict. destruct (section_title c); by simplify_map_eq.
Qed.

(** X9: once the splitter has returned its chunks, the rest of
    [smart_chunk] (the merge, the numbering and the filter) raises
    exactly when there is at least one chunk and the caller metadata
    holds a string under [token_count]; the exception is then the
    type error of the comparison in [optimize_chunks], never a missing
    key.  An exception of the encoder inside the splitter is not part
    of this statement. *)
Theorem merge_and_filter_raises (metadata : option (gmap string value)) :
  (forall txt,
     smart_chunk self txt metadata
     = merge_and_filter metadata (chunk_by_sections self txt))
  /\ forall (cs : list chunk) (e : py_error),
       merge_and_filter metadata cs = inl e <->
       e = TypeError
       /\ (exists s, md_lookup metadata "token_count" = Some (VStr s))
       /\ cs <> [].
Proof.
  split; [reflexivity|]. intros cs e. unfold merge_and_filter. split.
  - intros H. apply optimize_chunks_error in H as (d & Hd & Hcase).
    assert (cs <> []) as Hne.
    { intros ->. now apply elem_of_nil in Hd. }
    apply elem_of_lookup_imap in Hd as (i & c & -> & _).
    rewrite enrich_lookup, as_dict_token_count in Hcase by congruence.
    destruct Hcase as [[-> [s Hs]]|[_ Hnone]].
    + split; [reflexivity|]. split; [|exact Hne]. exists s.
      destruct (md_lookup metadata "token_count"); congruence.
    + destruct (md_lookup metadata "token_count"); discriminate.
  - intros (-> & [s Hs] & Hne).
    destruct cs as [|c cs]; [contradiction|].
    cbn [imap optimize_chunks].
    rewrite enrich_lookup, Hs by congruence. reflexivity.
Qed.

Lemma sublist_map_inv {A B} (f : A -> B) (l1 : list B) (l2 : list A) :
  sublist l1 (map f l2) ->
  exists l2', sublist l2' l2 /\ l1 = map f l2'.
Proof.
  revert l1. induction l2 as [|x l2 IH]; intros l1 H; simpl in H.
  - apply sublist_nil_r in H as ->. exists []. split; [constructor|reflexivity].
  - apply sublist_cons_r in H as [H|(l1' & -> & H)].
    + destruct (IH _ H) as (l2' & Hs & ->).
      exists l2'. split; [now apply sublist_cons|reflexivity].
    + destruct (IH _ H) as (l2' & Hs & ->).
      exists (x :: l2'). split; [now apply sublist_skip|reflexivity].
Qed.

Lemma final_chunks_indices txt md :
  map (fun d : gmap string value => d !! "chunk_index") (final_chunks txt md)
  = map (fun i : nat => Some (VInt (Z.of_nat i)))
        (seq 0 (length (chunk_by_sections self txt))).
Proof.
  unfold final_chunks.
  generalize (chunk_by_sections self txt). intros cs.
  assert (forall k,
            map (fun d : gmap string value => d !! "chunk_index")
                (imap (fun i c => enrich md (k + i) (as_dict c)) cs)
            = map (fun i : nat => Some (VInt (Z.of_nat i))) (seq k (length cs)))
    as Hgen.
  { induction cs as [|c cs IH]; intros k; simpl; [reflexivity|].
    rewrite enrich_chunk_index, Nat.add_0_r. f_equal.
    rewrite <- (IH (S k)). f_equal. apply imap_ext. intros i x _. simpl.
    f_equal. lia. }
  apply (Hgen 0%nat).
Qed.

(** X10: filtering neither reorders nor renumbers: the [chunk_index]
    values of the returned chunks are strictly increasing positions
    of the unfiltered list, gaps included. *)
Theorem smart_chunk_indices_increase (txt : string)
    (metadata : option (gmap string value)) out :
  smart_chunk self txt metadata = inr out ->
  exists indices : list nat,
    sublist indices (seq 0 (length (chunk_by_sections self txt)))
    /\ map (fun d : gmap string value => d !! "chunk_index") out
       = map (fun i : nat => Some (VInt (Z.of_nat i))) indices.
Proof.
  intros H. rewrite smart_chunk_unfold in H.
  apply optimize_chunks_sublist in H.
  apply (fmap_sublist (fun d : gmap string value => d !! "chunk_index")) in H.
  change (list_fmap _ _ ?f ?l) with (map f l) in H.
  rewrite final_chunks_indices in H.
  apply sublist_map_inv in H as (indices & Hs & Heq).
  exists indices. split; assumption.
Qed.

(** X11: the orchestrator never rewrites what the splitters produced:
    a returned chunk holds, under every key the caller metadata does
    not define (other than [chunk_index] and [chunk_id]), what the
    splitter's chunk at that index holds; in particular its text. *)
Theorem smart_chunk_keeps_fields (txt : string)
    (metadata : option (gmap string value)) out :
  smart_chunk self txt metadata = inr out ->
  Forall (fun d : gmap string value =>
            exists (i : nat) c,
              chunk_by_sections self txt !! i = Some c
              /\ d !! "chunk_index" = Some (VInt (Z.of_nat i))
              /\ (forall k, md_lookup metadata k = None ->
                            k <> "chunk_index" -> k <> "chunk_id" ->
                            d !! k = as_dict c !! k)
              /\ (md_lookup metadata "text" = None ->
                  d !! "text" = Some (VStr (text c)))) out.
Proof.
  intros H. rewrite smart_chunk_unfold in H.
  apply optimize_chunks_sublist in H.
  apply Forall_forall. intros d Hd.
  pose proof (elem_of_sublist _ _ _ Hd H) as Hin.
  apply final_chunks_elem in Hin as (i & c & Hc & ->).
  exists i, c. split; [exact Hc|]. split; [apply enrich_chunk_index|].
  assert (forall k, md_lookup metadata k = None ->
                    k <> "chunk_index" -> k <> "chunk_id" ->
                    enrich metadata i (as_dict c) !! k = as_dict c !! k)
    as Hkeep.
  { intros k Hk H1 H2. rewrite enrich_lookup by assumption. now rewrite Hk. }
  split; [exact Hkeep|].
  intros Hk. rewrite Hkeep by (assumption || congruence).
  unfold as_dict. destruct (section_title c); by simplify_map_eq.
Qed.

End OrchestratorFacts.

(** ** Matches lie inside the text *)

Section MatchBounds.

Lemma drop_zero s : PyStr.drop 0 s = s.
Proof. destruct s; reflexivity. Qed.

Lemma drop_drop n m s : PyStr.drop m (PyStr.drop n s) = PyStr.drop (n + m) s.
Proof.
  revert s. induction n as [|n IH]; intros s.
  - now rewrite drop_zero.
  - destruct s as [|c s]; simpl.
    + destruct m; reflexivity.
    + apply IH.
Qed.

Lemma drop_length n s :
  String.length (PyStr.drop n s) = (String.length s - n)%nat.
Proof.
  revert s. induction n as [|n IH]; intros s.
  - rewrite drop_zero. lia.
  - destruct s as [|c s]; simpl; [reflexivity|apply IH].
Qed.

Lemma advances_here pos s k e : k pos s = Some e -> advances pos s k e.
Proof.
  intros H. exists 0%nat. rewrite Nat.add_0_r, drop_zero. split; [lia|exact H].
Qed.

Lemma advances_shift pos c s k e :
  advances (S pos) s k e -> advances pos (String c s) k e.
Proof.
  intros (n & Hn & H). exists (S n). simpl.
  replace (pos + S n)%nat with (S pos + n)%nat by lia. split; [lia|exact H].
Qed.

Lemma advances_seq pos s (k1 k : Re.cont) e :
  advances pos s k1 e ->
  (forall pos' s' e', k1 pos' s' = Some e' -> advances pos' s' k e') ->
  advances pos s k e.
Proof.
  intros (n1 & Hn1 & H1) Hk. apply Hk in H1 as (n2 & Hn2 & H2).
  exists (n1 + n2)%nat. rewrite drop_length in Hn2.
  rewrite drop_drop in H2. rewrite Nat.add_assoc. split; [lia|exact H2].
Qed.

Lemma lit_advances w pos s k e :
  Re.lit w pos s k = Some e -> advances pos s k e.
Proof.
  revert pos s. induction w as [|c w IH]; intros pos s H; simpl in H.
  - now apply advances_here.
  - destruct s as [|c' s]; [discriminate|].
    destruct (Ascii.eqb c c'); [|discriminate].
    apply advances_shift, IH, H.
Qed.

Lemma star_advances p pos s k e :
  Re.star p pos s k = Some e -> advances pos s k e.
Proof.
  revert pos. induction s as [|c s IH]; intros pos H; simpl in H.
  - now apply advances_here.
  - destruct (p c); [|now apply advances_here].
    destruct (Re.star p (S pos) s k) as [e'|] eqn:E; simpl in H.
    + injection H as <-. apply advances_shift, IH, E.
    + now apply advances_here.
Qed.

Lemma star_lazy_advances p pos s k e :
  Re.star_lazy p pos s k = Some e -> advances pos s k e.
Proof.
  revert pos. induction s as [|c s IH]; intros pos H; simpl in H.
  - destruct (k pos "") eqn:E; [|discriminate].
    injection H as <-. now apply advances_here.
  - destruct (k pos (String c s)) eqn:E.
    + injection H as <-. now apply advances_here.
    + destruct (p c); [|discriminate]. apply advances_shift, IH, H.
Qed.

Lemma run_advances r pos s k e :
  Re.run r pos s k = Some e -> advances pos s k e.
Proof.
  revert pos s k e.
  induction r as [c|w|p| | |r1 IH1 r2 IH2|r1 IH1 r2 IH2|r IH|p|p];
    intros pos s k e H; cbn [Re.run] in H.
  - destruct s as [|c' s]; [discriminate|].
    destruct (Ascii.eqb c c'); [|discriminate].
    now apply advances_shift, advances_here.
  - now apply lit_advances in H.
  - destruct s as [|c' s]; [discriminate|].
    destruct (p c'); [|discriminate].
    now apply advances_shift, advances_here.
  - destruct (pos =? 0)%nat; [|discriminate]. now apply advances_here.
  - destruct (Re.at_eol s); [|discriminate]. now apply advances_here.
  - apply IH1 in H. eapply advances_seq; [exact H|].
    intros pos' s' e' H'. now apply IH2.
  - destruct (Re.run r1 pos s k) as [e'|] eqn:E; simpl in H.
    + injection H as <-. now apply IH1.
    + now apply IH2.
  - destruct (Re.run r pos s k) as [e'|] eqn:E; simpl in H.
    + injection H as <-. now apply IH.
    + now apply advances_here.
  - now apply star_advances in H.
  - now apply star_lazy_advances in H.
Qed.

Lemma match_at_bounds r pos s e :
  Re.match_at r pos s = Some e ->
  (pos <= e /\ e <= pos + String.length s)%nat.
Proof.
  intros H. apply run_advances in H as (n & Hn & H).
  injection H as <-. lia.
Qed.

Lemma scan_bounds r pos skip s b e :
  (b, e) ∈ Re.scan r pos skip s ->
  (pos + skip <= b /\ b <= e /\ e <= pos + String.length s)%nat.
Proof.
  revert pos skip. induction s as [|c s IH]; intros pos skip H.
  - destruct skip as [|skip]; simpl in H; [|now apply elem_of_nil in H].
    destruct (Re.match_at r pos "") as [e0|] eqn:E;
      [|now apply elem_of_nil in H].
    apply list_elem_of_singleton in H. injection H as -> ->.
    apply match_at_bounds in E. simpl in *. lia.
  - destruct skip as [|skip]; simpl in H.
    + destruct (Re.match_at r pos (String c s)) as [e0|] eqn:E.
      * apply elem_of_cons in H as [H|H].
        -- injection H as -> ->. apply match_at_bounds in E. simpl in *. lia.
        -- apply IH in H. apply match_at_bounds in E. simpl in *. lia.
      * apply IH in H. simpl. lia.
    + apply IH in H. simpl. lia.
Qed.

Lemma finditer_bounds r txt b e :
  (b, e) ∈ Re.finditer r txt -> (b <= e /\ e <= String.length txt)%nat.
Proof. intros H. apply scan_bounds in H. lia. Qed.

End MatchBounds.

(** ** Kept header matches and the sections they bound *)

Section HeaderMatches.

Lemma elem_of_insert_by {A} (key : A -> nat) (x y : A) (l : list A) :
  y ∈ PySeq.insert_by key x l <-> y = x \/ y ∈ l.
Proof.
  induction l as [|z l IH]; simpl.
  - rewrite list_elem_of_singleton, elem_of_nil.
    split; [auto|intros [H|[]]; exact H].
  - destruct (key x <? key z)%nat.
    + rewrite elem_of_cons. reflexivity.
    + rewrite !elem_of_cons, IH. split; intros [H|[H|H]]; auto.
Qed.

Lemma elem_of_sort_by {A} (key : A -> nat) (y : A) (l : list A) :
  y ∈ PySeq.sort_by key l <-> y ∈ l.
Proof.
  unfold PySeq.sort_by.
  assert (forall acc, y ∈ fold_left (fun acc x => PySeq.insert_by key x acc) l acc
                      <-> y ∈ l \/ y ∈ acc) as Hgen.
  { induction l as [|x l IH]; intros acc; simpl.
    - rewrite elem_of_nil. split; [auto|intros [[]|H]; exact H].
    - rewrite IH, elem_of_insert_by, elem_of_cons.
      split; [intros [H|[H|H]]|intros [[H|H]|H]]; auto. }
  rewrite Hgen, elem_of_nil. split; [intros [H|[]]; exact H|auto].
Qed.

Lemma unique_loop_elem ms ce m :
  m ∈ unique_loop ms ce -> m ∈ ms.
Proof.
  revert ce. induction ms as [|x ms IH]; intros ce H; simpl in H.
  - exact H.
  - destruct (Z.of_nat (m_start x) >=? ce).
    + apply elem_of_cons in H as [->|H]; [now left|right; eapply IH, H].
    + right. eapply IH, H.
Qed.

Lemma unique_loop_head ms ce m :
  head (unique_loop ms ce) = Some m -> ce <= Z.of_nat (m_start m).
Proof.
  revert ce. induction ms as [|x ms IH]; intros ce H; simpl in H.
  - discriminate.
  - destruct (Z.geb_spec (Z.of_nat (m_start x)) ce).
    + simpl in H. injection H as <-. lia.
    + now apply IH.
Qed.

Lemma unique_loop_apart ms ce i m1 m2 :
  unique_loop ms ce !! i = Some m1 ->
  unique_loop ms ce !! S i = Some m2 ->
  (m_end m1 <= m_start m2)%nat.
Proof.
  revert ce i. induction ms as [|x ms IH]; intros ce i H1 H2; simpl in *.
  - discriminate.
  - destruct (Z.of_nat (m_start x) >=? ce); [|eapply IH; eassumption].
    destruct i as [|i]; simpl in *; [|eapply IH; eassumption].
    injection H1 as <-.
    assert (head (unique_loop ms (Z.of_nat (m_end x))) = Some m2) as Hh
      by (destruct (unique_loop ms (Z.of_nat (m_end x))); simpl in *; congruence).
    apply unique_loop_head in Hh. lia.
Qed.

Lemma all_matches_elem doc m :
  m ∈ all_matches doc ->
  (m_start m <= m_end m /\ m_end m <= String.length doc)%nat
  /\ m_title m = PyStr.strip (PyStr.slice doc (m_start m) (m_end m)).
Proof.
  assert (forall pat, m ∈ matches_of pat doc ->
            (m_start m <= m_end m /\ m_end m <= String.length doc)%nat
            /\ m_title m = PyStr.strip (PyStr.slice doc (m_start m) (m_end m)))
    as Hpat.
  { intros pat H. unfold matches_of in H.
    apply list_elem_of_In, in_map_iff in H as ([b e] & <- & Hin).
    apply list_elem_of_In, finditer_bounds in Hin. simpl. auto. }
  unfold all_matches. rewrite !elem_of_app. intros [H|[H|H]]; eauto.
Qed.

Lemma unique_matches_disjoint_aux doc :
  (forall m, m ∈ unique_matches doc -> (m_start m <= m_end m)%nat)
  /\ (forall i m1 m2,
        unique_matches doc !! i = Some m1 ->
        unique_matches doc !! S i = Some m2 ->
        (m_end m1 <= m_start m2)%nat).
Proof.
  split.
  - intros m Hm. unfold unique_matches in Hm.
    apply unique_loop_elem, elem_of_sort_by, all_matches_elem in Hm. lia.
  - intros i m1 m2. apply unique_loop_apart.
Qed.

(** X12: the header matches [chunk_by_sections] keeps are matches of
    one of the three patterns, lie inside the document, carry the
    stripped matched text as title, and never overlap: each starts at
    or after the end of the one kept before it.  None is kept only
    when none was found. *)
Theorem unique_matches_disjoint (doc : string) :
  (forall m, m ∈ unique_matches doc ->
     m ∈ all_matches doc
     /\ (m_start m <= m_end m /\ m_end m <= String.length doc)%nat
     /\ m_title m = PyStr.strip (PyStr.slice doc (m_start m) (m_end m)))
  /\ (forall i m1 m2,
        unique_matches doc !! i = Some m1 ->
        unique_matches doc !! S i = Some m2 ->
        (m_end m1 <= m_start m2)%nat)
  /\ (unique_matches doc = [] <-> all_matches doc = []).
Proof.
  split; [|split].
  - intros m Hm. unfold unique_matches in Hm.
    apply unique_loop_elem, elem_of_sort_by in Hm.
    split; [exact Hm|]. now apply all_matches_elem.
  - intros i m1 m2. apply unique_loop_apart.
  - unfold unique_matches. split.
    + intros Hnil.
      destruct (PySeq.sort_by m_start (all_matches doc)) as [|x l] eqn:E.
      * destruct (all_matches doc) as [|y l'] eqn:E'; [reflexivity|].
        assert (y ∈ PySeq.sort_by m_start (y :: l')) as Hy
          by (apply elem_of_sort_by; now left).
        rewrite E in Hy. now apply elem_of_nil in Hy.
      * simpl in Hnil.
        destruct (Z.geb_spec (Z.of_nat (m_start x)) (-1)); [discriminate|lia].
    + intros ->. reflexivity.
Qed.

Lemma append_cons c s1 s2 : String c s1 +:+ s2 = String c (s1 +:+ s2).
Proof. reflexivity. Qed.

Lemma append_nil_l s : "" +:+ s = s.
Proof. reflexivity. Qed.

Lemma append_nil_r s : s +:+ "" = s.
Proof. induction s as [|c s IH]; [reflexivity|]. now rewrite append_cons, IH. Qed.

Lemma drop_all s : PyStr.drop (String.length s) s = "".
Proof. induction s as [|c s IH]; [reflexivity|exact IH]. Qed.

Lemma slice_then_drop s (a b : nat) :
  (a <= b)%nat -> PyStr.slice s a b +:+ PyStr.drop b s = PyStr.drop a s.
Proof.
  unfold PyStr.slice. revert a b. induction s as [|c s IH]; intros a b Hab.
  - destruct a, b; reflexivity.
  - destruct a as [|a].
    + rewrite Nat.sub_0_r, drop_zero. destruct b as [|b]; [reflexivity|].
      simpl. rewrite append_cons. f_equal.
      specialize (IH 0%nat b). rewrite Nat.sub_0_r, drop_zero in IH.
      apply IH. lia.
    + destruct b as [|b]; [lia|]. simpl. apply IH. lia.
Qed.

Lemma slice_to_end s (a : nat) :
  PyStr.slice s a (String.length s) = PyStr.drop a s.
Proof.
  destruct (Nat.le_gt_cases a (String.length s)) as [Hle|Hgt].
  - rewrite <- (slice_then_drop s a (String.length s) Hle).
    now rewrite drop_all, append_nil_r.
  - unfold PyStr.slice. replace (String.length s - a)%nat with 0%nat by lia.
    assert (forall t n, (String.length t < n)%nat ->
                        substring n 0 t = "" /\ PyStr.drop n t = "") as Hout.
    { induction t as [|c t IHt]; intros [|n] Hn; simpl in *; try lia; auto.
      apply IHt. lia. }
    destruct (Hout s a Hgt) as [-> ->]. reflexivity.
Qed.

Lemma concat_cons t ts :
  String.concat "" (t :: ts) = t +:+ String.concat "" ts.
Proof.
  destruct ts as [|t' ts]; simpl; [now rewrite append_nil_r|reflexivity].
Qed.

(** Starts that do not decrease and stay inside the document. *)
Lemma section_texts_concat doc m rest :
  (forall i m1 m2, (m :: rest) !! i = Some m1 -> (m :: rest) !! S i = Some m2 ->
                   (m_start m1 <= m_start m2)%nat) ->
  String.concat "" (section_texts doc (m :: rest)) = PyStr.drop (m_start m) doc.
Proof.
  revert m. induction rest as [|m' rest IH]; intros m Hsorted.
  - simpl. apply slice_to_end.
  - change (section_texts doc (m :: m' :: rest))
      with (PyStr.slice doc (m_start m) (m_start m')
              :: section_texts doc (m' :: rest)).
    rewrite concat_cons, IH.
    + apply slice_then_drop. apply (Hsorted 0%nat); reflexivity.
    + intros i m1 m2 H1 H2. apply (Hsorted (S i)); assumption.
Qed.

Lemma sections_loop_texts doc ums :
  Forall (fun t => count_tokens self t <= chunk_size self)
         (section_texts doc ums) ->
  map text (sections_loop self doc ums) = section_texts doc ums.
Proof.
  induction ums as [|m rest IH]; intros Hfit; [reflexivity|].
  simpl in Hfit. apply Forall_cons in Hfit as [Hm Hrest].
  simpl. destruct (Z.gtb_spec (count_tokens self
                     (PyStr.slice doc (m_start m)
                        match rest with
                        | [] => String.length doc
                        | m' :: _ => m_start m'
                        end)) (chunk_size self)); [lia|].
  simpl. f_equal. now apply IH.
Qed.

(** X14: the section texts cut at the kept header matches, preceded
    by the preamble before the first match, concatenate to the whole
    document; and when each of them fits the budget, they are, in
    order, the texts of the chunks the section loop emits. *)
Theorem sections_tile_document (doc : string) first rest :
  unique_matches doc = first :: rest ->
  PyStr.slice doc 0 (m_start first)
    +:+ String.concat "" (section_texts doc (first :: rest)) = doc
  /\ (Forall (fun t => count_tokens self t <= chunk_size self)
             (section_texts doc (first :: rest)) ->
      map text (sections_loop self doc (first :: rest))
      = section_texts doc (first :: rest)).
Proof.
  intros E. split; [|apply sections_loop_texts].
  rewrite section_texts_concat.
  - rewrite slice_then_drop by lia. apply drop_zero.
  - intros i m1 m2 H1 H2. rewrite <- E in H1, H2.
    destruct (unique_matches_disjoint_aux doc) as [Hin Hapart].
    specialize (Hapart i m1 m2 H1 H2).
    assert (m1 ∈ unique_matches doc) as Hm1
      by (eapply list_elem_of_lookup_2, H1).
    pose proof (Hin m1 Hm1). lia.
Qed.

End HeaderMatches.

(** ** A document that is one paragraph *)

Section SingleParagraph.

Lemma prefix_refl s : String.prefix s s = true.
Proof.
  induction s as [|c s IH]; simpl; [reflexivity|].
  destruct (ascii_dec c c); [exact IH|congruence].
Qed.

Lemma find_self s : PyStr.find s s 0 = Some 0%nat.
Proof.
  unfold PyStr.find. replace (String.length s <? 0)%nat with false
    by (symmetry; apply Nat.ltb_ge; lia).
  rewrite drop_zero.
  destruct s; cbn [PyStr.find_at]; now rewrite prefix_refl.
Qed.

(** X13: a text without a blank line whose token count fits the
    budget comes back from [chunk_by_paragraphs] as exactly one chunk:
    the whole text, tagged [paragraph], at offset 0. *)
Theorem single_paragraph_document (txt : string) :
  Re.finditer Re.blank_line txt = [] ->
  count_tokens self txt <= chunk_size self ->
  chunk_by_paragraphs self txt
  = [_create_chunk_dict self txt 0 "paragraph" None].
Proof.
  intros Hsplit Hfit.
  unfold chunk_by_paragraphs, Re.split. rewrite Hsplit.
  cbn [Re.pieces]. rewrite drop_zero.
  cbn [build_para_infos]. rewrite find_self.
  cbn [fold_left]. unfold para_step.
  cbn [current_chunk current_tokens chunks para_text nonempty].
  rewrite andb_false_r.
  destruct (Z.gtb_spec (count_tokens self txt) (chunk_size self)); [lia|].
  cbn [current_chunk chunks app nonempty].
  unfold flush. cbn [map para_text para_start].
  unfold PyStr.join. simpl String.concat. reflexivity.
Qed.

End SingleParagraph.

(** ** Paragraph offsets *)

Section ParagraphOffsets.

Lemma ordered_weaken len from from' ms :
  (from' <= from)%nat -> ordered len from ms -> ordered len from' ms.
Proof.
  destruct ms as [|[b e] ms]; simpl; [lia|].
  intros Hle (Hb & He & Hrest). repeat split; (lia || assumption).
Qed.

Lemma scan_ordered r s pos skip :
  (skip <= String.length s)%nat ->
  ordered (pos + String.length s) (pos + skip) (Re.scan r pos skip s).
Proof.
  revert pos skip. induction s as [|c s IH]; intros pos skip Hskip.
  - simpl in Hskip. replace skip with 0%nat by lia. simpl.
    destruct (Re.match_at r pos "") as [e|] eqn:E; simpl; [|lia].
    apply match_at_bounds in E. simpl in E. lia.
  - destruct skip as [|skip]; simpl.
    + destruct (Re.match_at r pos (String c s)) as [e|] eqn:E; simpl.
      * apply match_at_bounds in E. simpl in E.
        split; [lia|]. split; [lia|].
        specialize (IH (S pos) (e - pos - 1)%nat).
        replace (S pos + String.length s)%nat
          with (pos + S (String.length s))%nat in IH by lia.
        eapply ordered_weaken; [|apply IH; lia]. lia.
      * specialize (IH (S pos) 0%nat).
        replace (S pos + String.length s)%nat
          with (pos + S (String.length s))%nat in IH by lia.
        eapply ordered_weaken; [|apply IH; lia]. lia.
    + specialize (IH (S pos) skip).
      replace (S pos + String.length s)%nat
        with (pos + S (String.length s))%nat in IH by lia.
      eapply ordered_weaken; [|apply IH; simpl in Hskip; lia]. lia.
Qed.

Lemma prefix_drop_substring s a n :
  String.prefix (substring a n s) (PyStr.drop a s) = true.
Proof.
  revert a n. induction s as [|c s IH]; intros a n.
  - destruct a, n; reflexivity.
  - destruct a as [|a].
    + rewrite drop_zero. destruct n as [|n]; [reflexivity|]. simpl.
      destruct (ascii_dec c c); [|congruence].
      specialize (IH 0%nat n). now rewrite drop_zero in IH.
    + simpl. apply IH.
Qed.

Lemma substring_drop s a n :
  substring a n s = substring 0 n (PyStr.drop a s).
Proof.
  revert a. induction s as [|c s IH]; intros a.
  - destruct a, n; reflexivity.
  - destruct a as [|a]; [now rewrite drop_zero|]. simpl. apply IH.
Qed.

Lemma find_at_sound sub s pos i :
  PyStr.find_at sub s pos = Some i ->
  exists k, i = (pos + k)%nat /\ String.prefix sub (PyStr.drop k s) = true.
Proof.
  revert pos. induction s as [|c s IH]; intros pos H; cbn [PyStr.find_at] in H.
  - destruct (String.prefix sub "") eqn:E; [|discriminate].
    injection H as <-. exists 0%nat. split; [lia|exact E].
  - destruct (String.prefix sub (String c s)) eqn:E.
    + injection H as <-. exists 0%nat. split; [lia|exact E].
    + apply IH in H as (k & -> & Hk). exists (S k). split; [lia|exact Hk].
Qed.

Lemma find_at_complete sub s pos k :
  (k <= String.length s)%nat ->
  String.prefix sub (PyStr.drop k s) = true ->
  exists i, PyStr.find_at sub s pos = Some i /\ (i <= pos + k)%nat.
Proof.
  revert pos k. induction s as [|c s IH]; intros pos k Hk Hp;
    cbn [PyStr.find_at].
  - simpl in Hk. replace k with 0%nat in Hp by lia. rewrite drop_zero in Hp.
    rewrite Hp. exists pos. split; [reflexivity|lia].
  - destruct (String.prefix sub (String c s)) eqn:E.
    + exists pos. split; [reflexivity|lia].
    + destruct k as [|k]; [rewrite drop_zero in Hp; congruence|].
      simpl in Hk, Hp.
      destruct (IH (S pos) k) as (i & Hi & Hle); [lia|exact Hp|].
      exists i. split; [exact Hi|lia].
Qed.

(** [str.find] from [start] finds an occurrence that lies at or after
    [start] and not after any occurrence known from there on. *)
Lemma find_between txt sub start j :
  (start <= j)%nat -> (j <= String.length txt)%nat ->
  String.prefix sub (PyStr.drop j txt) = true ->
  exists i, PyStr.find txt sub start = Some i
            /\ (start <= i)%nat /\ (i <= j)%nat
            /\ String.prefix sub (PyStr.drop i txt) = true.
Proof.
  intros Hs Hj Hp. unfold PyStr.find.
  replace (String.length txt <? start)%nat with false
    by (symmetry; apply Nat.ltb_ge; lia).
  destruct (find_at_complete sub (PyStr.drop start txt) start (j - start))
    as (i & Hi & Hle).
  - rewrite drop_length. lia.
  - rewrite drop_drop. now replace (start + (j - start))%nat with j by lia.
  - exists i. split; [exact Hi|].
    apply find_at_sound in Hi as (k & -> & Hk). rewrite drop_drop in Hk.
    repeat split; (lia || assumption).
Qed.

Lemma located_of_prefix txt t (i : nat) :
  String.prefix t (PyStr.drop i txt) = true ->
  located txt {| para_text := t; para_start := i |}.
Proof.
  intros H. unfold located, PyStr.slice. simpl.
  replace (i + String.length t - i)%nat with (String.length t) by lia.
  rewrite substring_drop. now apply prefix_correct.
Qed.

Lemma build_para_infos_located txt ms from search_start :
  ordered (String.length txt) from ms ->
  (search_start <= from)%nat ->
  Forall (located txt)
         (build_para_infos txt (Re.pieces txt from ms) search_start)
  /\ in_order search_start
       (build_para_infos txt (Re.pieces txt from ms) search_start).
Proof.
  revert from search_start.
  induction ms as [|[b e] ms IH]; intros from search_start Hord Hs;
    cbn [Re.pieces build_para_infos].
  - simpl in Hord.
    destruct (find_between txt (PyStr.drop from txt) search_start from)
      as (i & -> & Hi1 & Hi2 & Hp); [lia|lia|apply prefix_refl|].
    split.
    + constructor; [now apply located_of_prefix|constructor].
    + simpl. auto.
  - simpl in Hord. destruct Hord as (Hb & He & Hord).
    assert (from <= String.length txt)%nat as Hlen.
    { clear -Hb He Hord. revert e He Hord.
      induction ms as [|[b' e'] ms IHm]; intros e He Hord; simpl in Hord;
        [lia|].
      destruct Hord as (Hb' & He' & Hord). apply (IHm e'); [lia|exact Hord]. }
    destruct (find_between txt (PyStr.slice txt from b) search_start from)
      as (i & -> & Hi1 & Hi2 & Hp);
      [lia|lia|apply prefix_drop_substring|].
    destruct (IH e (i + String.length (PyStr.slice txt from b))%nat)
      as [Hloc Hin]; [exact Hord| |].
    { pose proof (substring_length_le from (b - from) txt) as Hl.
      unfold PyStr.slice. lia. }
    split.
    + constructor; [now apply located_of_prefix|exact Hloc].
    + simpl. split; [exact Hi1|exact Hin].
Qed.

(** X15: every paragraph [chunk_by_paragraphs] works on occurs in the
    text at its recorded start (the fallback of the search never
    fires), and each start lies at or after the end of the paragraph
    recorded before it; the paragraph texts are the pieces of the
    split. *)
Theorem paragraphs_located (txt : string) :
  map para_text (paragraphs_of txt) = Re.split Re.blank_line txt
  /\ Forall (located txt) (paragraphs_of txt)
  /\ in_order 0 (paragraphs_of txt).
Proof.
  split.
  - unfold paragraphs_of. generalize (Re.split Re.blank_line txt). intros l.
    generalize 0%nat. induction l as [|p l IH]; intros n; simpl;
      [reflexivity|]. f_equal. apply IH.
  - unfold paragraphs_of, Re.split, Re.finditer.
    apply build_para_infos_located; [|lia].
    apply (scan_ordered Re.blank_line txt 0 0). lia.
Qed.

End ParagraphOffsets.

(** ** Batches *)

Section Batches.

Lemma slice_nonneg {A} (l : list A) (lo hi : Z) :
  0 <= lo -> lo <= hi ->
  PySeq.slice l lo hi
  = firstn (Z.to_nat (hi - lo)) (skipn (Z.to_nat lo) l).
Proof.
  intros Hlo Hhi. unfold PySeq.slice, PySeq.clamp.
  destruct (Z.ltb_spec lo 0); [lia|].
  destruct (Z.ltb_spec hi 0); [lia|].
  destruct (Nat.le_gt_cases (length l) (Z.to_nat lo)) as [Hout|Hin].
  - rewrite Nat.min_r by lia.
    rewrite !skipn_all2 by lia. now rewrite !firstn_nil.
  - rewrite (Nat.min_l (Z.to_nat lo)) by lia.
    destruct (Nat.le_gt_cases (Z.to_nat hi) (length l)) as [Hh|Hh].
    + rewrite Nat.min_l by lia. f_equal. lia.
    + rewrite Nat.min_r by lia.
      rewrite !firstn_all2; [reflexivity| |]; rewrite length_skipn; lia.
Qed.

(** The slices at the starts of a range put the list together again. *)
Lemma slices_concat_from {A} (l : list A) (bs : Z) (n : nat) (i : Z) :
  1 <= bs -> 0 <= i ->
  Z.of_nat (length l) <= i + Z.of_nat n * bs ->
  (n <> 0%nat -> i + (Z.of_nat n - 1) * bs < Z.of_nat (length l)) ->
  concat (map (fun j => PySeq.slice l j (j + bs)) (PySeq.range_from n i bs))
  = skipn (Z.to_nat i) l.
Proof.
  intros Hbs. revert i. induction n as [|n IH]; intros i Hi Hreach Hlast.
  - simpl. rewrite skipn_all2; [reflexivity|lia].
  - cbn [PySeq.range_from map concat].
    rewrite slice_nonneg by lia.
    destruct n as [|n].
    + simpl. rewrite app_nil_r. apply firstn_all2. rewrite length_skipn. lia.
    + rewrite IH; [|lia|lia|intros _; lia].
      replace (Z.to_nat (i + bs)) with (Z.to_nat (i + bs - i) + Z.to_nat i)%nat
        by lia.
      rewrite <- skipn_skipn. apply firstn_skipn.
Qed.

Lemma slices_concat {A} (l : list A) (bs : Z) :
  1 <= bs ->
  concat (map (fun j => PySeq.slice l j (j + bs))
              (PySeq.range 0 (Z.of_nat (length l)) bs)) = l.
Proof.
  intros Hbs. unfold PySeq.range.
  destruct (Z.ltb_spec 0 bs); [|lia].
  destruct (Z.ltb_spec 0 (Z.of_nat (length l))) as [Hpos|Hzero]; simpl.
  - set (total := Z.of_nat (length l)) in *.
    assert (0 <= (total - 0 - 1) / bs) by (apply Z.div_pos; lia).
    pose proof (Z.mul_succ_div_gt (total - 0 - 1) bs).
    pose proof (Z.mul_div_le (total - 0 - 1) bs).
    rewrite slices_concat_from; [reflexivity|lia|lia| |].
    + rewrite Z2Nat.id by lia. lia.
    + intros _. rewrite Z2Nat.id by lia. lia.
  - destruct l; [reflexivity|simpl in Hzero; lia].
Qed.

Lemma range_slices_sized {A} (l : list A) (bs : Z) :
  1 <= bs ->
  Forall (fun j => (1 <= length (PySeq.slice l j (j + bs))
                    /\ length (PySeq.slice l j (j + bs)) <= Z.to_nat bs)%nat)
         (PySeq.range 0 (Z.of_nat (length l)) bs).
Proof.
  intros Hbs. apply Forall_forall. intros j Hj.
  apply list_elem_of_lookup in Hj as [k Hk].
  apply range_lookup in Hk as [_ Hj].
  rewrite slice_nonneg by lia.
  rewrite length_firstn, length_skipn. lia.
Qed.

End Batches.

(** ** The embedder *)

Section EmbedderFacts.

Local Notation "'edict'" :=
  (gmap string (Downstream.evalue vector)) (only parsing).

Lemma fold_left_over_map {A B C} (f : A -> B -> A) (g : C -> B) l a :
  fold_left f (map g l) a = fold_left (fun a x => f a (g x)) l a.
Proof. revert a. induction l as [|x l IH]; intros a; simpl; [reflexivity|apply IH]. Qed.

Lemma embed_each_spec task_type batch embeddings n :
  Downstream.embed_each embed_content task_type (embeddings, n) batch
  = (embeddings
       ++ imap (fun k t => embed_content (n + k)%nat t task_type) batch,
     (n + length batch)%nat).
Proof.
  unfold Downstream.embed_each.
  revert embeddings n. induction batch as [|t batch IH]; intros embeddings n.
  - simpl. now rewrite app_nil_r, Nat.add_0_r.
  - cbn [fold_left]. rewrite IH. unfold Downstream.embed_text.
    rewrite <- app_assoc. simpl. rewrite Nat.add_0_r. f_equal; [|lia].
    do 2 f_equal. apply imap_ext. intros k x _. simpl. f_equal. lia.
Qed.

Lemma embed_each_app task_type st b1 b2 :
  Downstream.embed_each embed_content task_type st (b1 ++ b2)
  = Downstream.embed_each embed_content task_type
      (Downstream.embed_each embed_content task_type st b1) b2.
Proof. unfold Downstream.embed_each. apply fold_left_app. Qed.

Lemma embed_batches_concat task_type (batches : list (list (Downstream.evalue vector))) st :
  fold_left (fun st b => Downstream.embed_each embed_content task_type st b)
            batches st
  = Downstream.embed_each embed_content task_type st (concat batches).
Proof.
  revert st. induction batches as [|b batches IH]; intros st; simpl.
  - reflexivity.
  - now rewrite IH, embed_each_app.
Qed.

Lemma embed_batch_positive n texts task_type batch_size :
  1 <= batch_size ->
  Downstream.embed_batch embed_content n texts task_type batch_size
  = inr (imap (fun k t => embed_content (n + k)%nat t task_type) texts,
         (n + length texts)%nat).
Proof.
  intros Hbs. unfold Downstream.embed_batch.
  destruct (Z.eqb_spec batch_size 0); [lia|]. f_equal.
  rewrite <- (fold_left_over_map
                (fun st b => Downstream.embed_each embed_content task_type st b)
                (fun j => PySeq.slice texts j (j + batch_size))).
  rewrite embed_batches_concat, slices_concat by exact Hbs.
  now rewrite embed_each_spec.
Qed.

(** X16: with a batch size of at least 1, [embed_batch] makes one
    request per text, in the order of the texts, and returns the
    answers aligned with the texts, whatever the batch size; a batch
    size of 0 raises the [ValueError] of [range], a negative one
    returns no embedding at all. *)
Theorem embed_batch_aligned (n : nat)
    (texts : list (Downstream.evalue vector)) (task_type : string)
    (batch_size : Z) :
  (1 <= batch_size ->
   Downstream.embed_batch embed_content n texts task_type batch_size
   = inr (imap (fun k t => embed_content (n + k)%nat t task_type) texts,
          (n + length texts)%nat))
  /\ (batch_size = 0 ->
      Downstream.embed_batch embed_content n texts task_type batch_size
      = inl Downstream.ValueError)
  /\ (batch_size < 0 ->
      Downstream.embed_batch embed_content n texts task_type batch_size
      = inr ([], n)).
Proof.
  split; [apply embed_batch_positive|]. split.
  - intros ->. reflexivity.
  - intros Hneg. unfold Downstream.embed_batch, PySeq.range.
    destruct (Z.eqb_spec batch_size 0); [lia|].
    destruct (Z.ltb_spec 0 batch_size); [lia|]. reflexivity.
Qed.

Lemma texts_of_all chunks :
  Forall (fun c : edict => is_Some (c !! "text")) chunks ->
  Downstream.texts_of chunks
  = inr (map (fun c => Downstream.get c "text" Downstream.ENone) chunks).
Proof.
  induction 1 as [|c cs [t Ht] _ IH]; simpl; [reflexivity|].
  unfold Downstream.get at 1. now rewrite Ht, IH.
Qed.

Lemma texts_of_error chunks e :
  Downstream.texts_of chunks = inl e ->
  e = Downstream.KeyError /\ Exists (fun c : edict => c !! "text" = None) chunks.
Proof.
  induction chunks as [|c cs IH]; simpl; [discriminate|].
  destruct (c !! "text") eqn:E.
  - destruct (Downstream.texts_of cs) as [e'|ts]; [|discriminate].
    intros H. injection H as <-. destruct (IH eq_refl) as [-> Hex].
    split; [reflexivity|now right].
  - intros H. injection H as <-. split; [reflexivity|now left].
Qed.

Lemma attach_spec (F : nat -> edict -> option vector) embeddings cs i :
  (forall k c, cs !! k = Some c -> embeddings !! (i + k)%nat = Some (F (i + k)%nat c)) ->
  Downstream.attach i cs embeddings
  = inr (imap (fun k c =>
                 <["embedding" := Downstream.of_answer (F (i + k)%nat c)]> c) cs).
Proof.
  revert i. induction cs as [|c cs IH]; intros i H; simpl; [reflexivity|].
  pose proof (H 0%nat c eq_refl) as H0. rewrite Nat.add_0_r in H0.
  rewrite H0, (IH (S i)).
  - rewrite Nat.add_0_r. do 2 f_equal. apply imap_ext. intros k x _. simpl.
    do 3 f_equal. lia.
  - intros k x Hx. specialize (H (S k) x Hx).
    now replace (S i + k)%nat with (i + S k)%nat by lia.
Qed.

Lemma successful_spec chunks :
  Forall (fun c : edict => is_Some (c !! "embedding")) chunks ->
  Downstream.successful chunks = inr (List.filter succeeded chunks).
Proof.
  induction 1 as [|c cs [v Hv] _ IH]; [reflexivity|].
  assert (succeeded c
          = match v with Downstream.ENone => false | _ => true end) as Hc.
  { unfold succeeded, Downstream.no_embedding. rewrite Hv. now destruct v. }
  cbn [Downstream.successful List.filter]. rewrite Hv, IH, Hc.
  now destruct v.
Qed.

Lemma embed_chunks_all n chunks :
  Forall (fun c : edict => is_Some (c !! "text")) chunks ->
  Downstream.embed_chunks embed_content n chunks
  = inr (List.filter succeeded (embedded n chunks), (n + length chunks)%nat).
Proof.
  intros Hall. unfold Downstream.embed_chunks.
  rewrite (texts_of_all chunks Hall).
  rewrite embed_batch_positive by lia. rewrite length_map.
  rewrite (attach_spec (fun j c => answer n j c)).
  - simpl. fold (embedded n chunks). rewrite successful_spec; [reflexivity|].
    apply Forall_forall. intros c Hc. unfold embedded in Hc.
    apply elem_of_lookup_imap in Hc as (k & x & -> & _).
    rewrite lookup_insert_eq. eauto.
  - intros k c Hc. simpl. rewrite list_lookup_imap.
    change (map ?f ?l) with (f <$> l). rewrite list_lookup_fmap, Hc.
    reflexivity.
Qed.

(** X17: when every chunk has a [text], [embed_chunks] makes one
    request per chunk and returns, in their order, exactly the chunks
    whose request was answered, each with the answer under
    [embedding] and nothing else changed; it raises only for a chunk
    without [text], and then a [KeyError]. *)
Theorem embed_chunks_keeps_answered (n : nat) (chunks : list edict) :
  (Forall (fun c : edict => is_Some (c !! "text")) chunks ->
   Downstream.embed_chunks embed_content n chunks
   = inr (List.filter succeeded (embedded n chunks), (n + length chunks)%nat))
  /\ (forall e,
        Downstream.embed_chunks embed_content n chunks = inl e ->
        e = Downstream.KeyError
        /\ Exists (fun c : edict => c !! "text" = None) chunks).
Proof.
  split; [apply embed_chunks_all|].
  intros e H.
  destruct (Downstream.texts_of chunks) as [e'|ts] eqn:E.
  - unfold Downstream.embed_chunks in H. rewrite E in H.
    injection H as <-. now apply texts_of_error.
  - assert (Forall (fun c : edict => is_Some (c !! "text")) chunks) as Hall.
    { clear H. revert ts E. induction chunks as [|c cs IH]; intros ts E;
        [constructor|]. simpl in E.
      destruct (c !! "text") eqn:Ec; [|discriminate].
      destruct (Downstream.texts_of cs) eqn:Ecs; [discriminate|].
      constructor; [eauto|]. eapply IH. reflexivity. }
    rewrite (embed_chunks_all n chunks Hall) in H. discriminate.
Qed.

End EmbedderFacts.

(** ** The vector store *)

Section StoreFacts.

Local Notation "'edict'" :=
  (gmap string (Downstream.evalue vector)) (only parsing).

Lemma collect_rows (chunks : list edict) rows :
  Downstream.collect chunks = inr rows ->
  rows = map row_of (List.filter succeeded chunks).
Proof.
  revert rows. induction chunks as [|c cs IH]; intros rows H; simpl in H.
  - now injection H as <-.
  - cbn [List.filter]. unfold succeeded at 1.
    destruct (Downstream.no_embedding c); simpl; [now apply IH|].
    destruct (c !! "chunk_id") as [id|] eqn:Eid; [|discriminate].
    destruct (c !! "text") as [t|] eqn:Et; [|discriminate].
    destruct (Downstream.collect cs) as [e|rs]; [discriminate|].
    injection H as <-. rewrite <- (IH rs eq_refl). f_equal.
    unfold row_of, Downstream.get. now rewrite Eid, Et.
Qed.



Lemma slice_batch_end {A} (l : list A) (i : Z) :
  0 <= i ->
  PySeq.slice l i (Z.min (i + 100) (Z.of_nat (length l)))
  = PySeq.slice l i (i + 100).
Proof.
  intros Hi. unfold PySeq.slice, PySeq.clamp.
  destruct (Z.ltb_spec i 0); [lia|].
  destruct (Z.ltb_spec (Z.min (i + 100) (Z.of_nat (length l))) 0); [lia|].
  destruct (Z.ltb_spec (i + 100) 0); [lia|].
  f_equal. lia.
Qed.

Lemma add_documents_calls (chunks : list edict) rows :
  Downstream.collect chunks = inr rows ->
  Downstream.add_documents chunks
  = inr (length rows,
         map (fun i => PySeq.slice rows i (i + 100))
             (PySeq.range 0 (Z.of_nat (length rows)) 100)).
Proof.
  intros E. unfold Downstream.add_documents. rewrite E. do 2 f_equal.
  apply map_ext_in. intros i Hi. cbv zeta.
  apply list_elem_of_In, list_elem_of_lookup in Hi as [k Hk].
  apply range_lookup in Hk as [_ Hk]. apply slice_batch_end. lia.
Qed.

(** X18: [add_documents] indexes exactly the chunks that hold an
    embedding, in their order: the batches it hands to the collection
    concatenate to the rows of those chunks, every batch holds between
    1 and 100 rows, and the count it returns is the number of those
    chunks. *)
Theorem add_documents_batches (chunks : list edict) count calls :
  Downstream.add_documents chunks = inr (count, calls) ->
  concat calls = map row_of (List.filter succeeded chunks)
  /\ count = length (List.filter succeeded chunks)
  /\ Forall (fun batch => (1 <= length batch <= 100)%nat) calls.
Proof.
  intros H.
  destruct (Downstream.collect chunks) as [e|rows] eqn:E.
  - unfold Downstream.add_documents in H. rewrite E in H. discriminate.
  - rewrite (add_documents_calls chunks rows E) in H.
    injection H as <- <-.
    pose proof (collect_rows chunks rows E) as Hrows.
    split; [|split].
    + rewrite slices_concat by lia. exact Hrows.
    + now rewrite Hrows, length_map.
    + apply Forall_map. eapply Forall_impl;
        [apply (range_slices_sized rows 100); lia|].
      intros i Hi. simpl in Hi. lia.
Qed.



End StoreFacts.

(** ** From the chunker to the collection *)

Section Pipeline.

Local Notation "'edict'" :=
  (gmap string (Downstream.evalue vector)) (only parsing).











End Pipeline.

End Verification.

(** * The model at work on concrete documents *)

(** A text without any header, run through a character-level chunker. *)
Lemma chunk_by_sections_no_headers_witness :
  chunk_by_sections (char_chunker 50 10) "plain words only"
  = chunk_by_paragraphs (char_chunker 50 10) "plain words only"
  /\ Forall (fun c => strategy c <> "section" /\ section_title c = None)
            (chunk_by_sections (char_chunker 50 10) "plain words only").
Proof.
  apply (chunk_by_sections_no_headers (char_chunker 50 10) "plain words only");
    reflexivity.
Defined.

(** C1: with [chunk_size = 10] and [chunk_overlap = 5] the first
    paragraph (5 units) is flushed and carried over as overlap; the
    second one (8 units) is then appended without a new check, and the
    group is emitted with the tag [paragraph] and more than 10 units:
    13 when units are words, 15 when they are characters, where the
    blank line of the join counts too. *)
Theorem paragraph_chunk_over_budget :
  map (fun c => (text c, token_count c, strategy c))
      (chunk_by_paragraphs (word_chunker 10 5) spaced_paragraphs)
  = [("a a a a a", 5, "paragraph"); (spaced_paragraphs, 13, "paragraph")]
  /\ map (fun c => (text c, token_count c, strategy c))
         (chunk_by_paragraphs (char_chunker 10 5) two_paragraphs)
     = [("aaaaa", 5, "paragraph"); (two_paragraphs, 15, "paragraph")]
  /\ chunk_size (word_chunker 10 5) < 13
  /\ chunk_size (char_chunker 10 5) < 15.
Proof.
  split; [vm_compute; reflexivity|].
  split; [vm_compute; reflexivity|].
  split; simpl; lia.
Qed.

(** C2: an oversized paragraph is cut into windows whose [start_char]
    is set to the start of the paragraph while [end_char] keeps the
    value computed from the sentinel; so every chunk tagged
    [paragraph_subsplit], whatever the chunker and the text, has a
    known [start_char] and an [end_char - start_char] that is not the
    length of its text. *)
Theorem subsplit_offsets_inconsistent :
  (forall self txt,
     Forall (fun c => strategy c = "paragraph_subsplit" ->
                      start_char c <> -1
                      /\ end_char c - start_char c <> PyStr.len (text c))
            (chunk_by_paragraphs self txt))
  /\ map (fun c => (text c, start_char c, end_char c, strategy c))
         (chunk_by_paragraphs (word_chunker 1 0) "hello world")
     = [("hello", 0, 4, "paragraph_subsplit");
        ("world", 0, 4, "paragraph_subsplit")].
Proof.
  split; [|vm_compute; reflexivity].
  intros self txt.
  eapply Forall_impl; [apply subsplit_chunks_offsets|].
  intros c H Hs. destruct (H Hs) as [Hstart Hend]. lia.
Qed.

(** C3 fails as stated: the empty text with metadata that carries a
    [token_count], and a text of ten blanks under a character-level
    count, both come back as one chunk. *)
Lemma smart_chunk_blank_not_empty :
  smart_chunk (char_chunker 1000 200) "" (Some token_count_12) <> inr []
  /\ PyStr.all_space ten_blanks = true
  /\ smart_chunk (char_chunker 1000 200) ten_blanks None <> inr [].
Proof.
  split; [|split].
  - intros H. vm_compute in H. discriminate H.
  - reflexivity.
  - intros H. vm_compute in H. discriminate H.
Qed.

(** Three blanks: one paragraph of three units, filtered out. *)
Lemma smart_chunk_blank_input_witness :
  smart_chunk (char_chunker 1000 200) "   " None = inr [].
Proof.
  apply (smart_chunk_blank_input (char_chunker 1000 200) "   " None).
  - reflexivity.
  - reflexivity.
  - right. vm_compute. repeat constructor.
Defined.

(** One short document with caller metadata, end to end. *)
Lemma smart_chunk_hello :
  smart_chunk (char_chunker 1000 200) "hello world!" (Some chunk_id_x)
  = inr [hello_dict].
Proof. vm_compute. reflexivity. Qed.

(** C8 fails as stated: [chunk_id] is written after the merge, so the
    caller's value under that key does not survive. *)
Lemma smart_chunk_chunk_id_not_callers :
  exists d,
    smart_chunk (char_chunker 1000 200) "hello world!" (Some chunk_id_x)
    = inr [d]
    /\ md_lookup (Some chunk_id_x) "chunk_id" = Some (VStr "x")
    /\ d !! "chunk_id" = Some (VStr "chnk_0_0")
    /\ d !! "chunk_id" <> Some (VStr "x").
Proof.
  exists hello_dict. split; [apply smart_chunk_hello|].
  split; [reflexivity|]. split; [vm_compute; reflexivity|].
  vm_compute. discriminate.
Qed.

(** The caller's [source] reaches the chunk. *)
Lemma smart_chunk_metadata_merged_witness :
  hello_dict !! "source" = Some (VStr "lease.pdf").
Proof.
  apply (smart_chunk_metadata_merged (char_chunker 1000 200) "hello world!"
           (Some chunk_id_x) [hello_dict] hello_dict "source").
  - apply smart_chunk_hello.
  - apply list_elem_of_here.
  - reflexivity.
  - discriminate.
  - discriminate.
Defined.

Lemma smart_chunk_gapped :
  smart_chunk (char_chunker 1000 200) gapped_document None
  = inr gapped_chunks.
Proof. vm_compute. reflexivity. Qed.

(** C7 fails as stated: the filter reads the [token_count] the
    caller metadata has put in the dict, so with a [token_count] in
    the metadata the empty text comes back as one chunk, whose text
    counts no token at all; and this whatever the tokenizer, which is
    not called on an empty text. *)
Lemma smart_chunk_emits_empty_chunk :
  (forall enc,
     smart_chunk
       {| chunk_size := 1000; chunk_overlap := 200; encoding := enc |}
       "" (Some token_count_12)
     = inr [empty_dict])
  /\ empty_dict !! "text" = Some (VStr "")
  /\ empty_dict !! "token_count" = Some (VInt 12)
  /\ (forall self, count_tokens self "" = 0).
Proof.
  split; [intros enc; vm_compute; reflexivity|].
  split; [vm_compute; reflexivity|].
  split; [vm_compute; reflexivity|].
  reflexivity.
Qed.

(** Of the three sections of [gapped_document] the one of nine
    characters is dropped; the two that are returned count 41 and 39
    characters. *)
Lemma smart_chunk_min_tokens_witness :
  map (fun d : gmap string value => (d !! "text", d !! "token_count"))
      gapped_chunks
  = [(Some (VStr (PyStr.slice gapped_document 0 41)), Some (VInt 41));
     (Some (VStr (PyStr.slice gapped_document 50 89)), Some (VInt 39))]
  /\ Forall (fun d : gmap string value =>
               exists n,
                 d !! "token_count" = Some (VInt n)
                 /\ 10 <= n
                 /\ (md_lookup None "token_count" = None ->
                     exists c,
                       c ∈ chunk_by_sections (char_chunker 1000 200)
                             gapped_document
                       /\ n = count_tokens (char_chunker 1000 200) (text c)
                       /\ (md_lookup None "text" = None ->
                           d !! "text" = Some (VStr (text c)))))
            gapped_chunks.
Proof.
  split; [vm_compute; reflexivity|].
  apply (smart_chunk_min_tokens (char_chunker 1000 200) gapped_document
           None gapped_chunks).
  apply smart_chunk_gapped.
Defined.

(** The identifiers of the chunks of [gapped_document]: the second
    chunk returned is the third of the splitter and starts at
    character 50. *)
Lemma smart_chunk_ids_distinct_witness :
  map (fun d : gmap string value =>
         (d !! "chunk_index", d !! "start_char", d !! "chunk_id"))
      gapped_chunks
  = [(Some (VInt 0), Some (VInt 0), Some (VStr "chnk_0_0"));
     (Some (VInt 2), Some (VInt 50), Some (VStr "chnk_2_50"))]
  /\ NoDup (map chunk_id_of gapped_chunks)
  /\ Forall (fun d : gmap string value =>
               exists (i : nat) c,
                 chunk_by_sections (char_chunker 1000 200) gapped_document
                   !! i = Some c
                 /\ d !! "chunk_index" = Some (VInt (Z.of_nat i))
                 /\ d !! "chunk_id"
                    = Some (VStr ("chnk_" +:+ pretty i +:+ "_"
                                    +:+ pretty (start_char c))))
            gapped_chunks.
Proof.
  split; [vm_compute; reflexivity|].
  apply (smart_chunk_ids_distinct (char_chunker 1000 200) gapped_document
           None gapped_chunks).
  apply smart_chunk_gapped.
Defined.

(** The recorded loop on [two_paragraphs], whose two chunks share the
    first paragraph. *)
Lemma paragraph_overlap_bound_witness :
  map fst (chunk_by_paragraphs_log (char_chunker 10 5) two_paragraphs)
  = chunk_by_paragraphs (char_chunker 10 5) two_paragraphs.
Proof.
  apply (paragraph_overlap_bound (char_chunker 10 5) two_paragraphs).
  simpl. lia.
Defined.

(** ** The further properties at work *)

(** The recorded groups of [two_paragraphs] under a budget of 10 and
    an overlap of 5: the second one holds 15 units. *)
Lemma paragraph_group_budget_witness :
  0 <= chunk_overlap (char_chunker 10 5)
  /\ forall c g,
       (c, Some g)
       ∈ chunk_by_paragraphs_log (char_chunker 10 5) two_paragraphs ->
       strategy c = "paragraph"
       /\ text c = group_text g
       /\ group_tokens (char_chunker 10 5) g <= 10 + 5.
Proof.
  assert (0 <= chunk_overlap (char_chunker 10 5)) as Hov by (simpl; lia).
  split; [exact Hov|].
  apply (paragraph_group_budget (char_chunker 10 5) Hov two_paragraphs).
Defined.

(** Twelve characters under windows of four with one unit of overlap. *)
Lemma token_windows_cover_witness :
  chunk_by_tokens (char_chunker 4 1) "hello world!"
  = map (window_chunk (char_chunker 4 1) "hello world!")
        (window_starts (char_chunker 4 1) "hello world!")
  /\ forall j, 0 <= j < 12 ->
       exists i, i ∈ window_starts (char_chunker 4 1) "hello world!"
                 /\ i <= j < i + 4.
Proof.
  destruct (token_windows_cover (char_chunker 4 1) "hello world!")
    as (Hwin & Hcover & _); [simpl; lia|simpl; lia|].
  split; [exact Hwin|exact Hcover].
Defined.

Lemma optimize_chunks_is_filter_witness :
  [hello_dict] = List.filter kept [hello_dict]
  /\ optimize_chunks [hello_dict] = inr [hello_dict].
Proof.
  apply (optimize_chunks_is_filter [hello_dict] [hello_dict]).
  vm_compute. reflexivity.
Defined.

Lemma smart_chunk_titled :
  smart_chunk (char_chunker 1000 200) titled_document None
  = inr titled_chunks.
Proof. vm_compute. reflexivity. Qed.

Lemma smart_chunk_indices_increase_witness :
  exists indices : list nat,
    sublist indices
      (seq 0 (length (chunk_by_sections (char_chunker 1000 200)
                        titled_document)))
    /\ map (fun d : gmap string value => d !! "chunk_index") titled_chunks
       = map (fun i : nat => Some (VInt (Z.of_nat i))) indices.
Proof.
  apply (smart_chunk_indices_increase (char_chunker 1000 200)
           titled_document None titled_chunks).
  apply smart_chunk_titled.
Defined.

Lemma smart_chunk_keeps_fields_witness :
  Forall (fun d : gmap string value =>
            exists (i : nat) c,
              chunk_by_sections (char_chunker 1000 200) "hello world!" !! i
              = Some c
              /\ d !! "chunk_index" = Some (VInt (Z.of_nat i))
              /\ (forall k, md_lookup (Some chunk_id_x) k = None ->
                            k <> "chunk_index" -> k <> "chunk_id" ->
                            d !! k = as_dict c !! k)
              /\ (md_lookup (Some chunk_id_x) "text" = None ->
                  d !! "text" = Some (VStr (text c)))) [hello_dict].
Proof.
  apply (smart_chunk_keeps_fields (char_chunker 1000 200) "hello world!"
           (Some chunk_id_x) [hello_dict]).
  apply smart_chunk_hello.
Defined.

Lemma single_paragraph_document_witness :
  chunk_by_paragraphs (char_chunker 1000 200) "hello world!"
  = [_create_chunk_dict (char_chunker 1000 200) "hello world!" 0
       "paragraph" None].
Proof.
  apply (single_paragraph_document (char_chunker 1000 200) "hello world!").
  - vm_compute. reflexivity.
  - vm_compute. discriminate.
Defined.

Lemma unique_matches_titled :
  unique_matches titled_document = titled_matches.
Proof. vm_compute. reflexivity. Qed.

Lemma sections_tile_document_witness :
  PyStr.slice titled_document 0 0
    +:+ String.concat "" (section_texts titled_document titled_matches)
  = titled_document
  /\ map text (sections_loop (char_chunker 1000 200) titled_document
                 titled_matches)
     = section_texts titled_document titled_matches.
Proof.
  destruct (sections_tile_document (char_chunker 1000 200) titled_document
              _ _ unique_matches_titled) as [Htile Htexts].
  split; [exact Htile|]. apply Htexts.
  repeat (constructor; [vm_compute; discriminate|]). constructor.
Defined.

Lemma add_documents_hello :
  Downstream.add_documents [hello_embedded]
  = inr (1%nat, [[row_of nat hello_embedded]]).
Proof. vm_compute. reflexivity. Qed.

Lemma add_documents_batches_witness :
  concat [[row_of nat hello_embedded]]
  = map (row_of nat) (List.filter (succeeded nat) [hello_embedded])
  /\ 1%nat = length (List.filter (succeeded nat) [hello_embedded])
  /\ Forall (fun batch : list (Downstream.row nat) =>
               (1 <= length batch <= 100)%nat)
            [[row_of nat hello_embedded]].
Proof.
  apply (add_documents_batches nat [hello_embedded]).
  apply add_documents_hello.
Defined.

